(** * Lyrics manager: the entity store and the color-range normalizer

    A shallow embedding of the store actor (songs, set lists, the title
    index and the per-set-list position tables), of the editor's
    [rebuildColorRanges], and of the pure parts of the presentation layer
    that call them (the query hooks, the set list editor, the rendering of
    colored lyrics), followed by the properties of the written
    specification that were checked against them and by further
    properties read off the code.

    Conventions.
    - Motoko [Text] is [string]; [Int] is [Z]; [Nat] is [nat], except inside
      [generateId], whose intermediate values are of the order of 10^8 and
      are kept in binary ([N]).
    - The actor's mutable maps ([Map.Map<Text, _>]) are [gmap string _];
      [add] is insertion-or-replacement, [remove] is [delete].
    - [List.List<_>] (a growable buffer) is a [list]; [add] appends at the
      end.  No buffer is shared between two map entries in the source, so
      no aliasing has to be modelled.
    - [Time.now()] is an explicit argument [now] of every update call.
    - [Runtime.trap msg] aborts the call and rolls the state back: a call
      that may trap returns a [result]. *)

From Stdlib Require Import ZArith NArith DecimalString DecimalN DecimalZ.
From Stdlib Require DecimalPos.
From Stdlib Require Ascii.
From stdpp Require Import gmap strings list fin_maps sorting.

(** ** Text primitives *)

Module Text.

(** [Text.toLower], on the ASCII letters (other characters are mapped to
    themselves). *)
Definition lowerChar (c : Strings.Ascii.ascii) : Strings.Ascii.ascii :=
  let n := Strings.Ascii.N_of_ascii c in
  if ((65 <=? n) && (n <=? 90))%N then Strings.Ascii.ascii_of_N (n + 32) else c.

Fixpoint toLower (s : string) : string :=
  match s with
  | EmptyString => EmptyString
  | String c r => String (lowerChar c) (toLower r)
  end.

Definition isSpace (c : Strings.Ascii.ascii) : bool := (Strings.Ascii.N_of_ascii c =? 32)%N.

Fixpoint trimStart (s : string) : string :=
  match s with
  | EmptyString => EmptyString
  | String c r => if isSpace c then trimStart r else s
  end.

Fixpoint trimEnd (s : string) : string :=
  match s with
  | EmptyString => EmptyString
  | String c r =>
      match trimEnd r with
      | EmptyString => if isSpace c then EmptyString else String c EmptyString
      | r' => String c r'
      end
  end.

(** [t.trim(#char ' ')]: strips the pattern from both ends. *)
Definition trim (s : string) : string := trimEnd (trimStart s).

(** [Int.toText] and [Nat.toText]: decimal, a leading minus sign for
    negative integers, no sign otherwise. *)
Definition ofInt (z : Z) : string := NilZero.string_of_int (Z.to_int z).
Definition ofNat (n : N) : string := NilZero.string_of_uint (N.to_uint n).

End Text.

(** ** Data model *)

Module ColorRange.
Record t := mk {
  start : nat;
  end_ : nat;
  color : string;
}.
End ColorRange.

(** Modelled from the spec: [Storage.ExternalBlob] comes from the
    blob-storage mixin, which is not part of the sources; the store only
    carries it around as an "optional attached binary asset reference". *)
Definition ExternalBlob : Type := string.

Module Song.
Record t := mk {
  id : string;
  title : string;
  artist : string;
  lyrics : string;
  scrollSpeed : nat;
  tempo : nat;
  backgroundColor : string;
  textColor : string;
  textSize : nat;
  isBold : bool;
  createdAt : Z;
  updatedAt : Z;
  linesPerScroll : Z;
  colorRanges : list ColorRange.t;
  image : option ExternalBlob;
}.
End Song.

Module SetList.
Record t := mk {
  id : string;
  name : string;
  songIds : list string;
  createdAt : Z;
  updatedAt : Z;
}.
End SetList.

Module SetListSongPosition.
Record t := mk {
  songId : string;
  position : nat;
}.
End SetListSongPosition.

Module FileHandleReference.
Record t := mk {
  path : string;
  isSetList : bool;
}.
End FileHandleReference.

(** The actor's persistent state. *)
Record State := {
  songs : gmap string Song.t;
  setLists : gmap string SetList.t;
  titleToId : gmap string string;
  setListSongPositions : gmap string (list SetListSongPosition.t);
  fileHandles : gmap string FileHandleReference.t;
}.

Definition emptyState : State :=
  {| songs := ∅; setLists := ∅; titleToId := ∅;
     setListSongPositions := ∅; fileHandles := ∅ |}.

Inductive result (A : Type) : Type :=
| Ok (a : A)
| Trap (msg : string).
Arguments Ok {A} a.
Arguments Trap {A} msg.

(** ** Helper functions of the actor *)

Definition generateId (now : Z) : string :=
  let randomPart : N := Z.abs_N (Z.rem (now * 100000000) 100000000) in
  let randomString :=
    if (randomPart mod 10 =? 0)%N then Text.ofNat randomPart +:+ "a"
    else if (randomPart mod 11 =? 0)%N then Text.ofNat randomPart +:+ "b"
    else if (randomPart mod 12 =? 0)%N then Text.ofNat randomPart +:+ "c"
    else if (randomPart mod 13 =? 0)%N then Text.ofNat randomPart +:+ "d"
    else if (randomPart mod 14 =? 0)%N then Text.ofNat randomPart +:+ "e"
    else if (randomPart mod 15 =? 0)%N then Text.ofNat randomPart +:+ "f"
    else if (randomPart mod 16 =? 0)%N then Text.ofNat randomPart +:+ "g"
    else if (randomPart mod 17 =? 0)%N then Text.ofNat randomPart +:+ "h"
    else if (randomPart mod 18 =? 0)%N then Text.ofNat randomPart +:+ "i"
    else if (randomPart mod 19 =? 0)%N then Text.ofNat randomPart +:+ "j"
    else if (randomPart mod 30 =? 0)%N then Text.ofNat randomPart +:+ "k"
    else Text.ofNat randomPart in
  let timestampPart := Text.ofInt now in
  timestampPart +:+ randomString.

Definition normalizeTitle (title : string) : string :=
  Text.trim (Text.toLower title).


(** Iteration over a map ([entries], [values]) visits the keys in
    ascending [Text.compare] order. *)
Definition keyLe {V : Type} (a b : string * V) : Prop := String.le a.1 b.1.

#[global] Instance keyLe_dec {V : Type} : RelDecision (@keyLe V).
Proof. intros a b. unfold keyLe. apply _. Defined.

Definition entries {V : Type} (m : gmap string V) : list (string * V) :=
  merge_sort keyLe (map_to_list m).

Definition values {V : Type} (m : gmap string V) : list V := (entries m).*2.

Definition withPositions (st : State)
    (p : gmap string (list SetListSongPosition.t)) : State :=
  {| songs := songs st; setLists := setLists st; titleToId := titleToId st;
     setListSongPositions := p; fileHandles := fileHandles st |}.

Definition addSongToSetListPositions (st : State) (setListId songId : string)
    : State :=
  let existingPositions :=
    match setListSongPositions st !! setListId with
    | None => []
    | Some positions => positions
    end in
  let position := length existingPositions + 1 in
  withPositions st
    (<[setListId := existingPositions ++ [SetListSongPosition.mk songId position]]>
       (setListSongPositions st)).

Definition removeSongFromSetListPositions (st : State)
    (setListId songId : string) : State :=
  match setListSongPositions st !! setListId with
  | None => st
  | Some positions =>
      let updatedPositions :=
        filter (λ pos, SetListSongPosition.songId pos ≠ songId) positions in
      withPositions st (<[setListId := updatedPositions]> (setListSongPositions st))
  end.

Definition updateSongPositionInSetList (st : State)
    (setListId songId : string) (newPosition : nat) : State :=
  match setListSongPositions st !! setListId with
  | None => st
  | Some positions =>
      let updatedPositions :=
        (λ pos,
           if decide (SetListSongPosition.songId pos = songId)
           then SetListSongPosition.mk (SetListSongPosition.songId pos) newPosition
           else pos) <$> positions in
      withPositions st (<[setListId := updatedPositions]> (setListSongPositions st))
  end.

Definition reorderSetList (st : State) (setListId : string) : State :=
  match setListSongPositions st !! setListId with
  | None => st
  | Some positions =>
      let positionsWithIndexes :=
        imap (λ i pos,
                SetListSongPosition.mk (SetListSongPosition.songId pos) (i + 1))
             positions in
      let updatedPositions := foldl (λ acc p, acc ++ [p]) [] positionsWithIndexes in
      withPositions st (<[setListId := updatedPositions]> (setListSongPositions st))
  end.

(** ** Persistent file handle references *)

Definition saveFileHandleReference (st : State) (id path : string)
    (isSetList : bool) : State :=
  let handleRef := FileHandleReference.mk path isSetList in
  {| songs := songs st; setLists := setLists st; titleToId := titleToId st;
     setListSongPositions := setListSongPositions st;
     fileHandles := <[id := handleRef]> (fileHandles st) |}.

Definition getFileHandleReference (st : State) (id : string)
    : option FileHandleReference.t :=
  fileHandles st !! id.

(** ** Song management *)

Module SaveSongResponse.
Record t := mk {
  success : bool;
  songId : option string;
  errorMessage : option string;
  replaceExistingPrompt : bool;
}.
End SaveSongResponse.

Definition withSong (st : State) (key : string) (song : Song.t)
    (normalizedTitle : string) : State :=
  {| songs := <[key := song]> (songs st); setLists := setLists st;
     titleToId := <[normalizedTitle := key]> (titleToId st);
     setListSongPositions := setListSongPositions st;
     fileHandles := fileHandles st |}.

Definition saveSong (now : Z) (st : State)
    (id : option string) (title artist lyrics : string)
    (scrollSpeed tempo : nat) (backgroundColor textColor : string)
    (textSize : nat) (isBold : bool) (linesPerScroll : Z)
    (colorRanges : list ColorRange.t) (replaceExisting : bool)
    (image : option ExternalBlob) : State * SaveSongResponse.t :=
  let normalizedTitle := normalizeTitle title in
  let existingId := titleToId st !! normalizedTitle in
  match id, existingId with
  | None, Some existingSongId =>
      if replaceExisting then
        let updatedSong :=
          Song.mk existingSongId title artist lyrics scrollSpeed tempo
            backgroundColor textColor textSize isBold now now linesPerScroll
            colorRanges image in
        (withSong st existingSongId updatedSong normalizedTitle,
         SaveSongResponse.mk true (Some existingSongId) None false)
      else
        let newId := generateId now in
        let newSong :=
          Song.mk newId title artist lyrics scrollSpeed tempo
            backgroundColor textColor textSize isBold now now linesPerScroll
            colorRanges image in
        (withSong st newId newSong normalizedTitle,
         SaveSongResponse.mk true (Some newId) None false)
  | Some songId, _ =>
      let createdAt :=
        match songs st !! songId with
        | None => now
        | Some existingSong => Song.createdAt existingSong
        end in
      let updatedSong :=
        Song.mk songId title artist lyrics scrollSpeed tempo
          backgroundColor textColor textSize isBold createdAt now linesPerScroll
          colorRanges image in
      (withSong st songId updatedSong normalizedTitle,
       SaveSongResponse.mk true (Some songId) None false)
  | None, None =>
      let newId := generateId now in
      let newSong :=
        Song.mk newId title artist lyrics scrollSpeed tempo
          backgroundColor textColor textSize isBold now now linesPerScroll
          colorRanges image in
      (withSong st newId newSong normalizedTitle,
       SaveSongResponse.mk true (Some newId) None false)
  end.

Definition deleteSong (st : State) (id : string) : result State :=
  match songs st !! id with
  | None => Trap "Song not found"
  | Some song =>
      let normalizedTitle := normalizeTitle (Song.title song) in
      let titleToId1 :=
        if (match titleToId st !! normalizedTitle with
            | Some existingId => bool_decide (existingId = id)
            | None => false
            end)
        then delete normalizedTitle (titleToId st)
        else titleToId st in
      let st1 :=
        {| songs := delete id (songs st); setLists := setLists st;
           titleToId := titleToId1;
           setListSongPositions := setListSongPositions st;
           fileHandles := fileHandles st |} in
      Ok (foldl (λ acc e, removeSongFromSetListPositions acc e.1 id)
                st1 (entries (setLists st1)))
  end.

Definition getSong (st : State) (id : string) : result Song.t :=
  match songs st !! id with
  | None => Trap "Song not found"
  | Some song => Ok song
  end.

(** [getAllSongs]: the stored songs sorted by title with [Text.compare];
    the sort is stable. *)
Fixpoint insertByTitle (song : Song.t) (l : list Song.t) : list Song.t :=
  match l with
  | [] => [song]
  | x :: r =>
      if bool_decide (String.le (Song.title song) (Song.title x))
      then song :: x :: r
      else x :: insertByTitle song r
  end.

Definition sortByTitle (l : list Song.t) : list Song.t :=
  foldr insertByTitle [] l.

Definition getAllSongs (st : State) : list Song.t :=
  let songsArray := values (songs st) in
  sortByTitle songsArray.

(** ** Set list management *)

Definition withSetLists (st : State) (m : gmap string SetList.t) : State :=
  {| songs := songs st; setLists := m; titleToId := titleToId st;
     setListSongPositions := setListSongPositions st;
     fileHandles := fileHandles st |}.

Definition createSetList (now : Z) (st : State) (name : string)
    (songIds : list string) : State * string :=
  let id := generateId now in
  let setList := SetList.mk id name songIds now now in
  (withSetLists st (<[id := setList]> (setLists st)), id).

Definition updateSetList (now : Z) (st : State) (id name : string)
    (songIds : list string) : result State :=
  match setLists st !! id with
  | None => Trap "Set list not found"
  | Some existingSetList =>
      let updatedSetList :=
        SetList.mk id name songIds (SetList.createdAt existingSetList) now in
      Ok (withSetLists st (<[id := updatedSetList]> (setLists st)))
  end.

Definition deleteSetList (st : State) (id : string) : result State :=
  if negb (bool_decide (is_Some (setLists st !! id))) then
    Trap "Set list not found"
  else
    Ok {| songs := songs st; setLists := delete id (setLists st);
          titleToId := titleToId st;
          setListSongPositions := delete id (setListSongPositions st);
          fileHandles := fileHandles st |}.

Definition getSongsInSetList (st : State) (setListId : string)
    : result (list Song.t) :=
  match setLists st !! setListId with
  | None => Trap "Set list not found"
  | Some setList =>
      Ok (foldl (λ songsList songId,
                   match songs st !! songId with
                   | Some song => songsList ++ [song]
                   | None => songsList
                   end)
                [] (SetList.songIds setList))
  end.

Definition moveSongInSetList (st : State) (setListId songId : string)
    (newPosition : nat) : result State :=
  match setLists st !! setListId with
  | None => Trap "Set list not found"
  | Some setList =>
      if bool_decide (list_find (λ id, id = songId) (SetList.songIds setList) = None)
      then Trap "Song not found in set list"
      else
        let st1 := updateSongPositionInSetList st setListId songId newPosition in
        Ok (reorderSetList st1 setListId)
  end.

(** ** Utility queries *)

Definition isTitleUnique (st : State) (title : string) : bool :=
  let normalizedTitle := normalizeTitle title in
  negb (bool_decide (is_Some (titleToId st !! normalizedTitle))).

Module Snapshot.
Record t := mk {
  songs : list Song.t;
  setLists : list SetList.t;
}.
End Snapshot.

Definition exportData (st : State) : Snapshot.t :=
  Snapshot.mk (values (songs st)) (values (setLists st)).

(** The inner [while] loop of [importData]: entry [i] of the id sequence
    gets position [i + 1]; [i] counts the entries already appended. *)
Fixpoint positionsFrom (i : nat) (songIds : list string)
    : list SetListSongPosition.t :=
  match songIds with
  | [] => []
  | songId :: rest => SetListSongPosition.mk songId (i + 1) :: positionsFrom (S i) rest
  end.

Definition importSong (st : State) (song : Song.t) : State :=
  withSong st (Song.id song) song (normalizeTitle (Song.title song)).

Definition importSetList (st : State) (setList : SetList.t) : State :=
  {| songs := songs st;
     setLists := <[SetList.id setList := setList]> (setLists st);
     titleToId := titleToId st;
     setListSongPositions :=
       <[SetList.id setList := positionsFrom 0 (SetList.songIds setList)]>
         (setListSongPositions st);
     fileHandles := fileHandles st |}.

Definition importData (st : State) (data : Snapshot.t) : State :=
  let cleared :=
    {| songs := ∅; setLists := ∅; titleToId := ∅; setListSongPositions := ∅;
       fileHandles := fileHandles st |} in
  let st1 := foldl importSong cleared (Snapshot.songs data) in
  foldl importSetList st1 (Snapshot.setLists data).

Module SetListSongInfo.
Record t := mk {
  setList : SetList.t;
  songPositions : list SetListSongPosition.t;
}.
End SetListSongInfo.

Definition getSetListSongInfo (st : State) (setListId : string)
    : result SetListSongInfo.t :=
  match setLists st !! setListId with
  | None => Trap "Set list not found"
  | Some setList =>
      let positions :=
        match setListSongPositions st !! setListId with
        | None => []
        | Some pos => pos
        end in
      Ok (SetListSongInfo.mk setList positions)
  end.

Definition getSetListSongCount (st : State) (setListId : string) : result nat :=
  match setLists st !! setListId with
  | None => Trap "Set list not found"
  | Some setList => Ok (length (SetList.songIds setList))
  end.

(** ** The actor as a state machine *)

(** The update calls of the actor's public interface (queries do not
    change the state). *)
Inductive Call : Type :=
| SaveSong (id : option string) (title artist lyrics : string)
    (scrollSpeed tempo : nat) (backgroundColor textColor : string)
    (textSize : nat) (isBold : bool) (linesPerScroll : Z)
    (colorRanges : list ColorRange.t) (replaceExisting : bool)
    (image : option ExternalBlob)
| DeleteSong (id : string)
| CreateSetList (name : string) (songIds : list string)
| UpdateSetList (id name : string) (songIds : list string)
| DeleteSetList (id : string)
| MoveSongInSetList (setListId songId : string) (newPosition : nat)
| ImportData (data : Snapshot.t)
| SaveFileHandleReference (id path : string) (isSetList : bool).

(** A call that traps leaves the state as it was. *)
Definition commit (st : State) (r : result State) : State :=
  match r with
  | Ok st' => st'
  | Trap _ => st
  end.

(** One update call, made at time [now]. *)
Definition exec (st : State) (m : Z * Call) : State :=
  let now := m.1 in
  match m.2 with
  | SaveSong id title artist lyrics scrollSpeed tempo backgroundColor textColor
      textSize isBold linesPerScroll colorRanges replaceExisting image =>
      (saveSong now st id title artist lyrics scrollSpeed tempo backgroundColor
         textColor textSize isBold linesPerScroll colorRanges replaceExisting
         image).1
  | DeleteSong id => commit st (deleteSong st id)
  | CreateSetList name songIds => (createSetList now st name songIds).1
  | UpdateSetList id name songIds => commit st (updateSetList now st id name songIds)
  | DeleteSetList id => commit st (deleteSetList st id)
  | MoveSongInSetList setListId songId newPosition =>
      commit st (moveSongInSetList st setListId songId newPosition)
  | ImportData data => importData st data
  | SaveFileHandleReference id path isSetList =>
      saveFileHandleReference st id path isSetList
  end.

(** The state of a freshly installed actor after a sequence of calls. *)
Definition run (trace : list (Z * Call)) : State := foldl exec emptyState trace.

(** ** The editor's color-range normalizer ([rebuildColorRanges]) *)

Module Editor.

(** [ColorHighlight]: [start] and [end] are JavaScript [bigint]s. *)
Record ColorHighlight := {
  start : Z;
  end_ : Z;
  color : string;
}.

(** [Number(b)] for a bigint [b].  The conversion is monotone and exact
    up to 2^53.  A range survives the filter only if its converted bounds
    lie between 0 and [text.length], which is below 2^53, so the bounds of
    every surviving range are converted exactly; ranges that do not
    survive can only change places with each other in the stable sort.
    The result is therefore the same as with an exact conversion, which is
    what is modelled. *)
Definition Number (b : Z) : Z := b.

(** [Array.prototype.sort] with the comparator
    [(a, b) => Number(a.start) - Number(b.start)]: a stable sort. *)
Fixpoint insertByStart (h : ColorHighlight) (l : list ColorHighlight)
    : list ColorHighlight :=
  match l with
  | [] => [h]
  | x :: r =>
      if (Number (start h) - Number (start x) <=? 0)%Z
      then h :: x :: r
      else x :: insertByStart h r
  end.

Definition sortByStart (l : list ColorHighlight) : list ColorHighlight :=
  foldr (λ h acc, insertByStart h acc) [] l.

Definition isValid (text : string) (h : ColorHighlight) : bool :=
  let start := Number (start h) in
  let end_ := Number (end_ h) in
  ((start <? end_) && (0 <=? start) && (end_ <=? Z.of_nat (String.length text)))%Z.

(** One iteration of the [for (const highlight of valid)] loop; the loop
    state is [(noOverlaps, lastEnd)]. *)
Definition scanStep (acc : list ColorHighlight * Z) (highlight : ColorHighlight)
    : list ColorHighlight * Z :=
  let '(noOverlaps, lastEnd) := acc in
  let start := Number (start highlight) in
  let end_ := Number (end_ highlight) in
  if (lastEnd <=? start)%Z then (noOverlaps ++ [highlight], end_)
  else (noOverlaps, lastEnd).

Definition rebuildColorRanges (text : string) (highlights : list ColorHighlight)
    : list ColorHighlight :=
  if bool_decide (length highlights = 0) then []
  else
    let sorted := sortByStart highlights in
    let valid := List.filter (isValid text) sorted in
    (foldl scanStep ([], 0%Z) valid).1.

End Editor.


(** ** The query hooks of the presentation layer ([useQueries.ts]) *)

(** A JavaScript [Map] with string keys: entries are kept in insertion
    order, and [set] on a key that is present replaces the value in
    place. *)
Module JsMap.
Section JsMap.
Context {V : Type}.

Fixpoint get (m : list (string * V)) (key : string) : option V :=
  match m with
  | [] => None
  | (k, v) :: r => if decide (k = key) then Some v else get r key
  end.

Fixpoint set (m : list (string * V)) (key : string) (value : V)
    : list (string * V) :=
  match m with
  | [] => [(key, value)]
  | (k, v) :: r =>
      if decide (k = key) then (k, value) :: r else (k, v) :: set r key value
  end.

Definition values (m : list (string * V)) : list V := m.*2.

End JsMap.
End JsMap.

Module Hooks.

(** The deduplication loop shared by [useGetAllSongs],
    [useGetSongsInSetList], [useExportData], [useImportData] and
    [useDownloadBackup]: one song per id, the one with the highest
    [updatedAt], the first of them on a tie. *)
Definition dedupeStep (songMap : list (string * Song.t)) (song : Song.t)
    : list (string * Song.t) :=
  match JsMap.get songMap (Song.id song) with
  | None => JsMap.set songMap (Song.id song) song
  | Some existing =>
      if (Song.updatedAt existing <? Song.updatedAt song)%Z
      then JsMap.set songMap (Song.id song) song
      else songMap
  end.

Definition dedupeSongs (songs : list Song.t) : list Song.t :=
  let songMap := foldl dedupeStep [] songs in
  JsMap.values songMap.


(** [useImportData]: the call the mutation makes on the actor.  (It also
    writes the settings to the browser's local storage, which is not part
    of the actor's state.) *)
Definition importMutation (st : State) (data : Snapshot.t) : State :=
  importData st
    (Snapshot.mk (dedupeSongs (Snapshot.songs data)) (Snapshot.setLists data)).

(** [exportData.setLists.find(sl => sl.id === setListId)]. *)
Definition findSetList (st : State) (setListId : string) : option SetList.t :=
  snd <$> list_find (λ sl, SetList.id sl = setListId)
            (Snapshot.setLists (exportData st)).

(** [Array.prototype.indexOf]: [None] stands for -1. *)
Definition indexOf (l : list string) (x : string) : option nat :=
  fst <$> list_find (λ y, y = x) l.

(** The mutation functions below read the set list with [exportData] and
    then call [updateSetList]; an [Error] thrown by the hook is a [Trap]
    with its message.  No other call is taken to arrive between the
    two. *)

(** [useAddSongToSetList]. *)
Definition addSongMutation (now : Z) (st : State) (setListId songId : string)
    : result State :=
  match findSetList st setListId with
  | None => Trap "Set list not found"
  | Some setList =>
      if negb (bool_decide (songId ∈ SetList.songIds setList)) then
        let newSongIds := SetList.songIds setList ++ [songId] in
        updateSetList now st setListId (SetList.name setList) newSongIds
      else Ok st
  end.


Inductive Direction : Type := up | down.

(** [useMoveSongInSetList]: the song changes places with its neighbour.
    Both indices of the exchange are within the array when it is made. *)
Definition moveSongMutation (now : Z) (st : State) (setListId songId : string)
    (direction : Direction) : result State :=
  match findSetList st setListId with
  | None => Trap "Set list not found"
  | Some setList =>
      match indexOf (SetList.songIds setList) songId with
      | None => Trap "Song not found in set list"
      | Some currentIndex =>
          let target :=
            match direction with
            | up =>
                if (0 <? currentIndex) then Some (currentIndex - 1) else None
            | down =>
                if (Z.of_nat currentIndex
                      <? Z.of_nat (length (SetList.songIds setList)) - 1)%Z
                then Some (currentIndex + 1) else None
            end in
          match target with
          | None => Ok st
          | Some newPosition =>
              match SetList.songIds setList !! currentIndex,
                    SetList.songIds setList !! newPosition with
              | Some current, Some neighbour =>
                  let newSongIds :=
                    <[newPosition := current]>
                      (<[currentIndex := neighbour]> (SetList.songIds setList)) in
                  updateSetList now st setListId (SetList.name setList) newSongIds
              | _, _ => Ok st
              end
          end
      end
  end.

(** [useReorderSetListSongs]. *)
Definition reorderMutation (now : Z) (st : State) (setListId : string)
    (songIds : list string) : result State :=
  match findSetList st setListId with
  | None => Trap "Set list not found"
  | Some setList => updateSetList now st setListId (SetList.name setList) songIds
  end.

(** [useRenameSetList]. *)
Definition renameMutation (now : Z) (st : State) (setListId newName : string)
    : result State :=
  match findSetList st setListId with
  | None => Trap "Set list not found"
  | Some setList =>
      updateSetList now st setListId newName (SetList.songIds setList)
  end.

(** [SetListFileData]: a set list as one exported file holds it. *)
Record SetListFileData := {
  fileId : string;
  fileName : string;
  fileSongIds : list string;
  fileCreatedAt : string;
  fileUpdatedAt : string;
  fileExportDate : string;
  fileVersion : string;
}.

(** [useImportSetLists]: one [createSetList] call per file, in order; each
    call is paired with the time at which the actor executes it.  The
    result is the state and the array of created [{id, name}] pairs. *)
Definition importSetListsStep (acc : State * list (string * string))
    (call : Z * SetListFileData) : State * list (string * string) :=
  let '(st, setListsToImport) := acc in
  let '(now, setListData) := call in
  let '(st', createdId) :=
    createSetList now st (fileName setListData) (fileSongIds setListData) in
  (st', setListsToImport ++ [(createdId, fileName setListData)]).

Definition importSetListsMutation (st : State) (calls : list (Z * SetListFileData))
    : State * list (string * string) :=
  foldl importSetListsStep (st, []) calls.

(** [sanitizeFileName], on the UTF-16 code units of the name: every unit
    outside [A-Za-z0-9_-] becomes an underscore (without the [u] flag the
    [i] flag adds the upper-case letters and no unit above 127), and the
    result is cut to 50 units. *)
Definition isFileNameUnit (c : N) : bool :=
  ((97 <=? c) && (c <=? 122) || (65 <=? c) && (c <=? 90) ||
   (48 <=? c) && (c <=? 57) || (c =? 95) || (c =? 45))%N.

Definition sanitizeFileName (name : list N) : list N :=
  take 50 ((λ c, if isFileNameUnit c then c else 95%N) <$> name).

End Hooks.

(** ** The set list editor ([SetListsTab.tsx]) *)

Module SetListsTab.

(** What [handlePositionCommit] decides once the typed position has been
    parsed to the integer [newPosition]: nothing when the song is not in
    the list, an error toast when the position is out of range, no change
    when the song is already there, otherwise the reordered id sequence it
    passes to the reorder mutation. *)
Inductive Commit : Type :=
| Ignore
| OutOfRange (length : nat)
| NoChange
| Reorder (newSongIds : list string).

Definition handlePositionCommit (songIds : list string) (songId : string)
    (newPosition : Z) : Commit :=
  match Hooks.indexOf songIds songId with
  | None => Ignore
  | Some currentIndex =>
      let targetIndex := (newPosition - 1)%Z in
      if ((targetIndex <? 0) || (Z.of_nat (length songIds) <=? targetIndex))%Z
      then OutOfRange (length songIds)
      else if (targetIndex =? Z.of_nat currentIndex)%Z then NoChange
      else
        let removed := delete currentIndex songIds in
        let newSongIds :=
          take (Z.to_nat targetIndex) removed ++ songId
            :: drop (Z.to_nat targetIndex) removed in
        Reorder newSongIds
  end.


End SetListsTab.

(** ** Play mode ([PlayTab.tsx]) *)

Module PlayTab.

(** The [key] of a rendered [span]. *)
Inductive SpanKey : Type :=
| KeyZero
| KeyText (idx : nat)
| KeyColor (idx : nat)
| KeyTextEnd.

(** A rendered [span]: its key, its [style.color] when it has one, and its
    text. *)
Record Span := {
  key : SpanKey;
  color : option string;
  children : string;
}.

(** [String.prototype.substring]: both indices are clamped to the string
    and exchanged when the first is the larger. *)
Definition clamp (text : string) (index : Z) : nat :=
  Z.to_nat (Z.min (Z.max index 0) (Z.of_nat (String.length text))).

Definition substring (text : string) (indexStart indexEnd : Z) : string :=
  let finalStart := clamp text indexStart in
  let finalEnd := clamp text indexEnd in
  let from := min finalStart finalEnd in
  let to := max finalStart finalEnd in
  String.substring from (to - from) text.

(** One call of the [forEach] callback; the loop state is
    [(elements, lastIndex)].  The color ranges have the shape of
    [ColorHighlight]. *)
Definition colorStep (text : string) (acc : list Span * Z)
    (entry : nat * Editor.ColorHighlight) : list Span * Z :=
  let '(elements, lastIndex) := acc in
  let '(idx, colorRange) := entry in
  let start := Editor.Number (Editor.start colorRange) in
  let end_ := Editor.Number (Editor.end_ colorRange) in
  let elements1 :=
    if (lastIndex <? start)%Z
    then elements ++ [Build_Span (KeyText idx) None (substring text lastIndex start)]
    else elements in
  (elements1 ++ [Build_Span (KeyColor idx) (Some (Editor.color colorRange))
                   (substring text start end_)],
   end_).

Definition applyTextColorChanges (text : string)
    (colorRanges : list Editor.ColorHighlight) : list Span :=
  if bool_decide (length colorRanges = 0) then [Build_Span KeyZero None text]
  else
    let sortedColorRanges := Editor.sortByStart colorRanges in
    let '(elements, lastIndex) :=
      foldl (colorStep text) ([], 0%Z) (imap (λ idx colorRange, (idx, colorRange))
                                          sortedColorRanges) in
    if (lastIndex <? Z.of_nat (String.length text))%Z
    then elements ++ [Build_Span KeyTextEnd None
                        (substring text lastIndex (Z.of_nat (String.length text)))]
    else elements.

End PlayTab.

(** ** Vocabulary of the properties *)

(** A color range lies within the text: [0 <= start < end <= length]. *)
Definition inBounds (text : string) (h : Editor.ColorHighlight) : Prop :=
  (0 ≤ Editor.start h ∧ Editor.start h < Editor.end_ h ∧
   Editor.end_ h ≤ Z.of_nat (String.length text))%Z.

(** [a] ends before [b] starts. *)
Definition before (a b : Editor.ColorHighlight) : Prop :=
  (Editor.end_ a ≤ Editor.start b)%Z.

Definition ascending (a b : Editor.ColorHighlight) : Prop :=
  (Editor.start a < Editor.start b)%Z.

(** What the scanning loop maintains: everything accepted so far is in
    bounds, pairwise ordered, and ends at or before the cursor. *)
Definition scanInv (text : string) (acc : list Editor.ColorHighlight * Z) : Prop :=
  Forall (inBounds text) acc.1 ∧ StronglySorted before acc.1 ∧
  Forall (λ h, (Editor.end_ h ≤ acc.2)%Z) acc.1 ∧ (0 ≤ acc.2)%Z.

(** Every song and every set list is stored under its own id. *)
Definition wellKeyed (st : State) : Prop :=
  map_Forall (λ key song, Song.id song = key) (songs st) ∧
  map_Forall (λ key setList, SetList.id setList = key) (setLists st).

(** Every position table belongs to a stored set list. *)
Definition tablesOwned (st : State) : Prop :=
  map_Forall (λ key _, is_Some (setLists st !! key)) (setListSongPositions st).

(** The positions of a table are at least 1 and strictly increasing. *)
Definition ascendingPositions (positions : list SetListSongPosition.t) : Prop :=
  Forall (λ pos, 1 ≤ SetListSongPosition.position pos) positions ∧
  StronglySorted (λ a b, SetListSongPosition.position a < SetListSongPosition.position b)
    positions.

Definition tablesAscending (st : State) : Prop :=
  map_Forall (λ _ positions, ascendingPositions positions) (setListSongPositions st).


(** Calls that write position tables. *)
Definition writesTables (c : Call) : bool :=
  match c with
  | DeleteSong _ | DeleteSetList _ | ImportData _ | MoveSongInSetList _ _ _ => true
  | _ => false
  end.

Definition writesFileHandles (c : Call) : bool :=
  match c with
  | SaveFileHandleReference _ _ _ => true
  | _ => false
  end.



(** The text a list of spans shows, and its colored pieces in order. *)
Definition renderedText (spans : list PlayTab.Span) : string :=
  foldr (λ span rest, PlayTab.children span +:+ rest) "" spans.

Definition coloredPieces (spans : list PlayTab.Span) : list (string * string) :=
  omap (λ span, (λ c, (c, PlayTab.children span)) <$> PlayTab.color span) spans.

(** ** Example stores *)

Definition songX : Song.t :=
  Song.mk "s1" "X" "Ann" "la la la" 1 120 "#000000" "#ffffff" 16 false
    100 100 1 [] None.

Definition songY : Song.t :=
  Song.mk "s2" "Y" "Bob" "do re mi" 1 90 "#000000" "#ffffff" 16 true
    110 110 1 [] None.

Definition listA : SetList.t := SetList.mk "L" "A" ["s1"; "s2"] 120 120.

(** A store holding the two songs and the set list [A = [s1, s2]], as
    [importData] builds it. *)
Definition exampleStore : State :=
  importData emptyState (Snapshot.mk [songX; songY] [listA]).

(** * Properties *)

(** ** Text helpers and the identifier generator on examples *)

Example normalizeTitle_X : normalizeTitle "X" = "x".
Proof. reflexivity. Qed.

Example normalizeTitle_x_space : normalizeTitle "  My Song " = "my song".
Proof. reflexivity. Qed.

Example generateId_1 : generateId 1700000000000000000 = "17000000000000000000a".
Proof. reflexivity. Qed.


(** ** The color-range normalizer *)

Section normalizer.
Import Editor.
Local Open Scope Z_scope.

Variable text : string.

Local Abbreviation inBounds := (inBounds text).
Local Abbreviation scanInv := (scanInv text).

Lemma isValid_inBounds h : isValid text h = true → inBounds h.
Proof. unfold isValid, inBounds, Number. intros H. lia. Qed.

Lemma filter_isValid l : Forall inBounds (List.filter (isValid text) l).
Proof.
  apply List.Forall_forall. intros h Hh.
  apply List.filter_In in Hh as [_ Hv]. by apply isValid_inBounds.
Qed.

Lemma scanInv_init : scanInv ([], 0).
Proof. repeat split; simpl; first [lia | constructor]. Qed.

Lemma scanStep_inv acc h : inBounds h → scanInv acc → scanInv (scanStep acc h).
Proof.
  destruct acc as [out lastEnd]. intros (H0 & Hlt & Hlen) (Hb & Hs & He & Hc).
  unfold scanStep, Number. simpl in *.
  destruct (Z.leb_spec lastEnd (start h)) as [Hle|Hgt]; simpl.
  - repeat split.
    + apply Forall_app. split; [done|]. by repeat constructor.
    + apply StronglySorted_app_2; [|done|repeat constructor].
      intros a b Ha ->%list_elem_of_singleton.
      rewrite Forall_forall in He. specialize (He a Ha). unfold before.
      simpl in He. lia.
    + apply Forall_app. split.
      * eapply Forall_impl; [exact He|]. simpl. intros; lia.
      * repeat constructor. simpl. lia.
    + simpl. lia.
  - done.
Qed.

Lemma scan_inv l acc : Forall inBounds l → scanInv acc → scanInv (foldl scanStep acc l).
Proof.
  revert acc. induction l as [|h l IH]; intros acc Hl Hacc; simpl; [done|].
  inversion Hl; subst. apply IH; [done|]. by apply scanStep_inv.
Qed.

Lemma before_ascending l :
  Forall inBounds l → StronglySorted before l → StronglySorted ascending l.
Proof.
  induction 2 as [|a l Hs IH Ha]; [constructor|].
  inversion H; subst. constructor; [by apply IH|].
  rewrite Forall_forall in *. intros b Hb.
  specialize (Ha b Hb). destruct H2 as (? & ? & ?).
  unfold before, ascending in *. lia.
Qed.

(** C5. For every text and every list of color ranges, the ranges
    returned by [rebuildColorRanges] satisfy [0 <= start < end <=
    length text], are pairwise non-overlapping (an earlier one ends at or
    before the start of every later one), and are in strictly ascending
    order of [start]. *)
Theorem rebuildColorRanges_normalized (highlights : list ColorHighlight) :
  Forall inBounds (rebuildColorRanges text highlights) ∧
  StronglySorted before (rebuildColorRanges text highlights) ∧
  StronglySorted ascending (rebuildColorRanges text highlights).
Proof.
  assert (Forall inBounds (rebuildColorRanges text highlights) ∧
          StronglySorted before (rebuildColorRanges text highlights)) as [Hb Hs].
  { unfold rebuildColorRanges. case_bool_decide.
    - split; constructor.
    - destruct (scan_inv (List.filter (isValid text) (sortByStart highlights))
                  ([], 0) (filter_isValid _) scanInv_init) as (? & ? & _).
      done. }
  auto using before_ascending.
Qed.

End normalizer.

Example rebuildColorRanges_overlap :
  Editor.rebuildColorRanges "hello world"
    [ Editor.Build_ColorHighlight 3 8 "red";
      Editor.Build_ColorHighlight 0 4 "green";
      Editor.Build_ColorHighlight 4 20 "blue";
      Editor.Build_ColorHighlight 8 11 "black";
      Editor.Build_ColorHighlight 5 5 "white" ]
  = [ Editor.Build_ColorHighlight 0 4 "green";
      Editor.Build_ColorHighlight 8 11 "black" ].
Proof. reflexivity. Qed.

(** ** Saving songs *)

Section saveSong.
Variables (now : Z) (st : State).
Variables (title artist lyrics : string) (scrollSpeed tempo : nat).
Variables (backgroundColor textColor : string) (textSize : nat).
Variables (isBold : bool) (linesPerScroll : Z).
Variables (colorRanges : list ColorRange.t) (image : option ExternalBlob).

(** The call with every content field fixed; only the optional id and
    the replace flag vary. *)
Local Abbreviation save id replaceExisting :=
  (saveSong now st id title artist lyrics scrollSpeed tempo backgroundColor
     textColor textSize isBold linesPerScroll colorRanges replaceExisting image).

(** The record written for identity [key] with creation time [created]. *)
Local Abbreviation written key created :=
  (Song.mk key title artist lyrics scrollSpeed tempo backgroundColor textColor
     textSize isBold created now linesPerScroll colorRanges image).

Lemma withSong_songs key song nt :
  songs (withSong st key song nt) !! key = Some song.
Proof. simpl. apply lookup_insert_eq. Qed.

Lemma withSong_title key song nt :
  titleToId (withSong st key song nt) !! nt = Some key.
Proof. simpl. apply lookup_insert_eq. Qed.

(** C10. On every input [saveSong] answers [success = true], no error
    message and no replace prompt, and it has written the submitted
    content under the identity it reports and pointed the title index
    entry of the normalized title at that identity. *)
Theorem saveSong_always_succeeds (id : option string) (replaceExisting : bool) :
  SaveSongResponse.success (save id replaceExisting).2 = true ∧
  SaveSongResponse.errorMessage (save id replaceExisting).2 = None ∧
  SaveSongResponse.replaceExistingPrompt (save id replaceExisting).2 = false ∧
  ∃ key created,
    SaveSongResponse.songId (save id replaceExisting).2 = Some key ∧
    songs (save id replaceExisting).1 !! key = Some (written key created) ∧
    titleToId (save id replaceExisting).1 !! normalizeTitle title = Some key.
Proof.
  unfold saveSong.
  destruct id as [songId|], (titleToId st !! normalizeTitle title) as [existing|];
    try destruct replaceExisting; simpl;
    repeat split; eexists _, _; repeat split;
    first [reflexivity | apply lookup_insert_eq].
Qed.

(** C9. An id that is not in the song store is accepted: the song is
    inserted under exactly that id with both timestamps equal to the
    current time, the title index entry of the normalized title points
    at it, and no other song is touched. *)
Theorem saveSong_unknown_id_inserts (songId : string) (replaceExisting : bool) :
  songs st !! songId = None →
  (save (Some songId) replaceExisting).2
    = SaveSongResponse.mk true (Some songId) None false ∧
  songs (save (Some songId) replaceExisting).1 !! songId
    = Some (written songId now) ∧
  titleToId (save (Some songId) replaceExisting).1 !! normalizeTitle title
    = Some songId ∧
  ∀ other, other ≠ songId →
    songs (save (Some songId) replaceExisting).1 !! other = songs st !! other.
Proof.
  intros Hnone. unfold saveSong. rewrite Hnone. simpl.
  repeat split; try apply lookup_insert_eq.
  intros other Hne. by apply lookup_insert_ne.
Qed.

(** C3 (what the code does). Saving without an id under a title whose
    normalized form is already indexed, with [replaceExisting = true],
    overwrites the record of the indexed identity, and the record it
    writes carries the current time as its creation timestamp, whatever
    the creation timestamp of the replaced song was. *)
Theorem saveSong_replace_resets_createdAt (existingSongId : string) :
  titleToId st !! normalizeTitle title = Some existingSongId →
  SaveSongResponse.songId (save None true).2 = Some existingSongId ∧
  songs (save None true).1 !! existingSongId = Some (written existingSongId now).
Proof.
  intros Hidx. unfold saveSong. rewrite Hidx. simpl.
  split; [reflexivity | apply lookup_insert_eq].
Qed.

(** C4 (what the code does). Retitling a stored song through [saveSong]
    leaves the title index entry of its old normalized title in place,
    still pointing at the song. *)
Theorem saveSong_retitle_keeps_old_entry (songId : string) (old : Song.t)
    (replaceExisting : bool) :
  songs st !! songId = Some old →
  titleToId st !! normalizeTitle (Song.title old) = Some songId →
  normalizeTitle title ≠ normalizeTitle (Song.title old) →
  titleToId (save (Some songId) replaceExisting).1
    !! normalizeTitle (Song.title old) = Some songId.
Proof.
  intros Hsong Hidx Hne. unfold saveSong. rewrite Hsong. simpl.
  by rewrite lookup_insert_ne.
Qed.

End saveSong.

(** ** Folding insertions into a map *)

Section fold_insert.
Context {A V : Type} (key : A → string) (val : A → V).

Lemma foldl_insert_last (l : list A) (m : gmap string V) (k : string) :
  foldl (λ acc a, <[key a := val a]> acc) m l !! k
  = match last (filter (λ a, key a = k) l) with
    | Some a => Some (val a)
    | None => m !! k
    end.
Proof.
  induction l as [|a l IH] using rev_ind; [done|].
  rewrite foldl_app, filter_app. simpl.
  destruct (decide (key a = k)) as [Heq|Hne].
  - rewrite (filter_cons_True _ a []) by done.
    rewrite filter_nil, last_snoc, Heq. apply lookup_insert_eq.
  - rewrite (filter_cons_False _ a []) by done.
    rewrite filter_nil, app_nil_r, lookup_insert_ne by done. apply IH.
Qed.

Lemma foldl_insert_last_empty (l : list A) (k : string) :
  foldl (λ acc a, <[key a := val a]> acc) (∅ : gmap string V) l !! k
  = val <$> last (filter (λ a, key a = k) l).
Proof.
  rewrite foldl_insert_last.
  destruct (last (filter (λ a, key a = k) l)); [done|apply lookup_empty].
Qed.

End fold_insert.

Lemma foldl_proj {S A M : Type} (f : S → A → S) (g : M → A → M) (p : S → M) :
  (∀ s a, p (f s a) = g (p s) a) →
  ∀ l s, p (foldl f s l) = foldl g (p s) l.
Proof.
  intros Hfg l. induction l as [|a l IH]; intros s; simpl; [done|].
  by rewrite IH, Hfg.
Qed.

Lemma foldl_keep {S A M : Type} (f : S → A → S) (p : S → M) :
  (∀ s a, p (f s a) = p s) → ∀ l s, p (foldl f s l) = p s.
Proof.
  intros Hf l. induction l as [|a l IH]; intros s; simpl; [done|].
  by rewrite IH, Hf.
Qed.

(** ** Snapshot import and export *)

Lemma positionsFrom_imap (i : nat) (songIds : list string) :
  positionsFrom i songIds
  = imap (λ j songId, SetListSongPosition.mk songId (i + j + 1)) songIds.
Proof.
  revert i. induction songIds as [|x l IH]; intros i; simpl; [done|].
  rewrite IH. f_equal; [f_equal; lia|].
  apply imap_ext. intros j y _. simpl. f_equal. lia.
Qed.

Lemma importData_songs st data :
  songs (importData st data)
  = foldl (λ acc s, <[Song.id s := s]> acc) ∅ (Snapshot.songs data).
Proof.
  unfold importData.
  rewrite (foldl_keep importSetList songs) by done.
  by rewrite (foldl_proj importSong (λ acc s, <[Song.id s := s]> acc) songs).
Qed.

Lemma importData_titleToId st data :
  titleToId (importData st data)
  = foldl (λ acc s, <[normalizeTitle (Song.title s) := Song.id s]> acc) ∅
      (Snapshot.songs data).
Proof.
  unfold importData.
  rewrite (foldl_keep importSetList titleToId) by done.
  by rewrite (foldl_proj importSong
    (λ acc s, <[normalizeTitle (Song.title s) := Song.id s]> acc) titleToId).
Qed.

Lemma importData_setLists st data :
  setLists (importData st data)
  = foldl (λ acc l, <[SetList.id l := l]> acc) ∅ (Snapshot.setLists data).
Proof.
  unfold importData.
  rewrite (foldl_proj importSetList (λ acc l, <[SetList.id l := l]> acc) setLists)
    by done.
  by rewrite (foldl_keep importSong setLists).
Qed.

Lemma importData_positions st data :
  setListSongPositions (importData st data)
  = foldl (λ acc l, <[SetList.id l := positionsFrom 0 (SetList.songIds l)]> acc) ∅
      (Snapshot.setLists data).
Proof.
  unfold importData.
  rewrite (foldl_proj importSetList
    (λ acc l, <[SetList.id l := positionsFrom 0 (SetList.songIds l)]> acc)
    setListSongPositions) by done.
  by rewrite (foldl_keep importSong setListSongPositions).
Qed.

(** C6. [importData] is a destructive full replace.  Whatever the prior
    state, afterwards: the song store maps an id to the last imported song
    carrying it and to nothing else; the title index maps a normalized
    title to the id of the last imported song with that normalized title;
    the set list store maps an id to the last imported set list carrying
    it; the position table of that id lists the songs of that set list's
    id sequence in order, entry [i] (from 0) at position [i + 1]; and
    importing the empty snapshot makes [exportData] return two empty
    arrays. *)
Theorem importData_full_replace (st : State) (data : Snapshot.t) :
  (∀ id, songs (importData st data) !! id
         = last (filter (λ s, Song.id s = id) (Snapshot.songs data))) ∧
  (∀ key, titleToId (importData st data) !! key
          = Song.id <$> last (filter (λ s, normalizeTitle (Song.title s) = key)
                                (Snapshot.songs data))) ∧
  (∀ id, setLists (importData st data) !! id
         = last (filter (λ l, SetList.id l = id) (Snapshot.setLists data))) ∧
  (∀ id, setListSongPositions (importData st data) !! id
         = (λ l, imap (λ i songId, SetListSongPosition.mk songId (i + 1))
                   (SetList.songIds l))
           <$> last (filter (λ l, SetList.id l = id) (Snapshot.setLists data))) ∧
  exportData (importData st (Snapshot.mk [] [])) = Snapshot.mk [] [].
Proof.
  split_and!.
  - intros id. rewrite importData_songs.
    rewrite (foldl_insert_last_empty Song.id (λ s, s)).
    by destruct (last _).
  - intros key. rewrite importData_titleToId.
    apply (foldl_insert_last_empty (λ s, normalizeTitle (Song.title s)) Song.id).
  - intros id. rewrite importData_setLists.
    rewrite (foldl_insert_last_empty SetList.id (λ l, l)).
    by destruct (last _).
  - intros id. rewrite importData_positions.
    rewrite (foldl_insert_last_empty SetList.id
               (λ l, positionsFrom 0 (SetList.songIds l))).
    destruct (last _) as [l|]; [|done]. simpl. f_equal.
    apply positionsFrom_imap.
  - unfold exportData, values, entries. simpl.
    by rewrite !map_to_list_empty.
Qed.

(** ** Creating a set list *)

(** C1 (what the code does). [createSetList] stores the set list under
    the generated id and does not touch the position tables: when no
    table was stored under that id before, [getSetListSongInfo] on the
    returned id reports the set list with an empty array of positions. *)
Theorem createSetList_builds_no_positions (now : Z) (st : State)
    (name : string) (songIds : list string) :
  setListSongPositions st !! generateId now = None →
  getSetListSongInfo (createSetList now st name songIds).1
                     (createSetList now st name songIds).2
  = Ok (SetListSongInfo.mk (SetList.mk (generateId now) name songIds now now) []).
Proof.
  intros Hnone. unfold getSetListSongInfo, createSetList. simpl.
  by rewrite lookup_insert_eq, Hnone.
Qed.

Lemma createSetList_builds_no_positions_witness :
  setListSongPositions emptyState !! generateId 1 = None ∧
  getSetListSongInfo (createSetList 1 emptyState "A" ["s1"; "s2"]).1
                     (createSetList 1 emptyState "A" ["s1"; "s2"]).2
  = Ok (SetListSongInfo.mk (SetList.mk "10a" "A" ["s1"; "s2"] 1 1) []).
Proof.
  split; [reflexivity|].
  apply (createSetList_builds_no_positions 1 emptyState "A" ["s1"; "s2"]).
  reflexivity.
Defined.

(** ** Moving a song inside a set list *)

Lemma foldl_snoc {A : Type} (l acc : list A) :
  foldl (λ acc p, acc ++ [p]) acc l = acc ++ l.
Proof.
  revert acc. induction l as [|x l IH]; intros acc; simpl.
  - by rewrite app_nil_r.
  - by rewrite IH, <- app_assoc.
Qed.

Lemma moveSongInSetList_set_list_absent st setListId songId newPosition :
  setLists st !! setListId = None →
  moveSongInSetList st setListId songId newPosition = Trap "Set list not found".
Proof. intros H. unfold moveSongInSetList. by rewrite H. Qed.

Lemma moveSongInSetList_song_absent st setListId songId newPosition setList :
  setLists st !! setListId = Some setList →
  songId ∉ SetList.songIds setList →
  moveSongInSetList st setListId songId newPosition
  = Trap "Song not found in set list".
Proof.
  intros H Hnot. unfold moveSongInSetList. rewrite H.
  rewrite bool_decide_eq_true_2; [done|].
  apply list_find_None, Forall_forall. by intros x Hx ->.
Qed.

(** C2 (what the code does). A successful [moveSongInSetList] renumbers
    the position table of the set list 1..N in the order the entries
    already had: [newPosition] is written and then overwritten, so the
    order of the songs in the table never changes. *)
Theorem moveSongInSetList_keeps_order (st : State) (setListId songId : string)
    (newPosition : nat) (setList : SetList.t) :
  setLists st !! setListId = Some setList →
  songId ∈ SetList.songIds setList →
  ∃ st', moveSongInSetList st setListId songId newPosition = Ok st' ∧
    setListSongPositions st' !! setListId
    = imap (λ i pos, SetListSongPosition.mk (SetListSongPosition.songId pos) (i + 1))
      <$> setListSongPositions st !! setListId.
Proof.
  intros Hsl Hin. unfold moveSongInSetList. rewrite Hsl.
  rewrite bool_decide_eq_false_2.
  2:{ rewrite list_find_None, Forall_forall. intros Hall. by apply (Hall songId). }
  eexists. split; [reflexivity|].
  unfold reorderSetList, updateSongPositionInSetList.
  destruct (setListSongPositions st !! setListId) as [positions|] eqn:Hpos.
  - simpl. rewrite lookup_insert_eq. simpl. rewrite lookup_insert_eq. f_equal.
    rewrite foldl_snoc, imap_fmap. simpl.
    apply imap_ext. intros i pos _. simpl. by case_decide.
  - by rewrite Hpos.
Qed.

Lemma moveSongInSetList_keeps_order_witness :
  ∃ st', moveSongInSetList exampleStore "L" "s2" 1 = Ok st' ∧
    setListSongPositions st' !! "L"
    = Some [SetListSongPosition.mk "s1" 1; SetListSongPosition.mk "s2" 2].
Proof.
  destruct (moveSongInSetList_keeps_order exampleStore "L" "s2" 1 listA)
    as (st' & Hmove & Hpos).
  - reflexivity.
  - apply list_elem_of_In. simpl. tauto.
  - exists st'. split; [exact Hmove|]. rewrite Hpos. reflexivity.
Defined.

(** ** Witnesses for the properties of [saveSong] *)

Lemma saveSong_unknown_id_inserts_witness :
  songs exampleStore !! "s9" = None ∧
  songs (saveSong 200 exampleStore (Some "s9") "Z" "Cy" "fa so" 2 100
           "#111111" "#eeeeee" 18 true 2 [] false None).1 !! "s9"
  = Some (Song.mk "s9" "Z" "Cy" "fa so" 2 100 "#111111" "#eeeeee" 18 true
            200 200 2 [] None).
Proof.
  split; [reflexivity|].
  destruct (saveSong_unknown_id_inserts 200 exampleStore "Z" "Cy" "fa so" 2 100
              "#111111" "#eeeeee" 18 true 2 [] None "s9" false)
    as (_ & Hsong & _); [reflexivity|exact Hsong].
Defined.

Lemma saveSong_replace_resets_createdAt_witness :
  Song.createdAt <$> songs exampleStore !! "s1" = Some 100%Z ∧
  titleToId exampleStore !! normalizeTitle "x " = Some "s1" ∧
  Song.createdAt
    <$> songs (saveSong 200 exampleStore None "x " "Cy" "fa so" 2 100
                 "#111111" "#eeeeee" 18 true 2 [] true None).1 !! "s1"
  = Some 200%Z.
Proof.
  split; [reflexivity|]. split; [reflexivity|].
  destruct (saveSong_replace_resets_createdAt 200 exampleStore "x " "Cy" "fa so"
              2 100 "#111111" "#eeeeee" 18 true 2 [] None "s1")
    as (_ & Hsong); [reflexivity|].
  rewrite Hsong. reflexivity.
Defined.

Lemma saveSong_retitle_keeps_old_entry_witness :
  titleToId (saveSong 200 exampleStore (Some "s1") "Z" "Ann" "la la la" 1 120
               "#000000" "#ffffff" 16 false 1 [] false None).1 !! "x"
  = Some "s1".
Proof.
  apply (saveSong_retitle_keeps_old_entry 200 exampleStore "Z" "Ann" "la la la"
           1 120 "#000000" "#ffffff" 16 false 1 [] None "s1" songX false).
  - reflexivity.
  - reflexivity.
  - discriminate.
Defined.

(** After the retitling above no stored song is titled "X" any more, yet
    the title is still reported as taken. *)
Example retitle_leaves_title_taken :
  let st' := (saveSong 200 exampleStore (Some "s1") "Z" "Ann" "la la la" 1 120
                "#000000" "#ffffff" 16 false 1 [] false None).1 in
  Song.title <$> values (songs st') = ["Z"; "Y"] ∧ isTitleUnique st' "X" = false.
Proof. split; reflexivity. Qed.

(** ** Deleting a song *)

Lemma filter_idemp {A : Type} (P : A → Prop) `{!∀ x, Decision (P x)} (l : list A) :
  filter P (filter P l) = filter P l.
Proof.
  rewrite list_filter_filter. apply list_filter_iff. intros x. tauto.
Qed.

Lemma removeSong_positions st setListId id key :
  setListSongPositions (removeSongFromSetListPositions st setListId id) !! key
  = if decide (key = setListId)
    then filter (λ pos, SetListSongPosition.songId pos ≠ id)
           <$> setListSongPositions st !! key
    else setListSongPositions st !! key.
Proof.
  unfold removeSongFromSetListPositions.
  destruct (setListSongPositions st !! setListId) as [positions|] eqn:Hpos; simpl.
  - case_decide as Hk.
    + subst. by rewrite lookup_insert_eq, Hpos.
    + by rewrite lookup_insert_ne.
  - case_decide as Hk; [|done]. subst. by rewrite Hpos.
Qed.

Lemma removeSong_frame st setListId id :
  songs (removeSongFromSetListPositions st setListId id) = songs st ∧
  setLists (removeSongFromSetListPositions st setListId id) = setLists st ∧
  titleToId (removeSongFromSetListPositions st setListId id) = titleToId st.
Proof.
  unfold removeSongFromSetListPositions.
  by destruct (setListSongPositions st !! setListId).
Qed.

Lemma foldl_removeSong_positions {V : Type} (l : list (string * V)) st id key :
  setListSongPositions
    (foldl (λ acc e, removeSongFromSetListPositions acc e.1 id) st l) !! key
  = if decide (key ∈ l.*1)
    then filter (λ pos, SetListSongPosition.songId pos ≠ id)
           <$> setListSongPositions st !! key
    else setListSongPositions st !! key.
Proof.
  revert st. induction l as [|e l IH]; intros st.
  - rewrite decide_False; [done|apply not_elem_of_nil].
  - cbn [foldl]. rewrite IH, removeSong_positions, fmap_cons.
    destruct (decide (key = e.1)) as [->|Hne].
    + rewrite (decide_True _ _ (proj2 (elem_of_cons _ _ _) (or_introl eq_refl))).
      case_decide; [|done].
      destruct (setListSongPositions st !! e.1); simpl; [|done].
      by rewrite filter_idemp.
    + destruct (decide (key ∈ l.*1)) as [Hin|Hnin].
      * rewrite decide_True; [done|]. apply elem_of_cons. by right.
      * rewrite decide_False; [done|]. rewrite elem_of_cons. by intros [?|?].
Qed.

Lemma foldl_removeSong_frame {V : Type} (l : list (string * V)) st id :
  songs (foldl (λ acc e, removeSongFromSetListPositions acc e.1 id) st l) = songs st ∧
  setLists (foldl (λ acc e, removeSongFromSetListPositions acc e.1 id) st l)
  = setLists st ∧
  titleToId (foldl (λ acc e, removeSongFromSetListPositions acc e.1 id) st l)
  = titleToId st.
Proof.
  revert st. induction l as [|e l IH]; intros st; simpl; [done|].
  destruct (IH (removeSongFromSetListPositions st e.1 id)) as (H1 & H2 & H3).
  rewrite H1, H2, H3. apply removeSong_frame.
Qed.

Lemma elem_of_entries_keys {V : Type} (m : gmap string V) key :
  key ∈ (entries m).*1 ↔ is_Some (m !! key).
Proof.
  unfold entries. rewrite merge_sort_Permutation, list_elem_of_fmap. split.
  - intros ([k v] & -> & Hin). apply elem_of_map_to_list in Hin. by exists v.
  - intros [v Hv]. exists (key, v). split; [done|]. by apply elem_of_map_to_list.
Qed.

Lemma foldl_collect_omap (m : gmap string Song.t) (ids : list string)
    (acc : list Song.t) :
  foldl (λ songsList songId,
           match m !! songId with
           | Some song => songsList ++ [song]
           | None => songsList
           end) acc ids
  = acc ++ omap (λ songId, m !! songId) ids.
Proof.
  revert acc. induction ids as [|x ids IH]; intros acc; simpl.
  - by rewrite app_nil_r.
  - rewrite IH. destruct (m !! x); simpl; [|done]. by rewrite <- app_assoc.
Qed.

Lemma omap_lookup_delete (m : gmap string Song.t) (id : string) (ids : list string) :
  omap (λ songId, delete id m !! songId) ids
  = omap (λ songId, if decide (songId = id) then None else m !! songId) ids.
Proof.
  induction ids as [|x ids IH]; csimpl; [done|].
  rewrite IH. case_decide as Hx.
  - subst. by rewrite lookup_delete_eq.
  - by rewrite lookup_delete_ne.
Qed.

(** C7. [deleteSong id] traps with "Song not found" when [id] is not in
    the song store.  Otherwise it removes the song; it removes the title
    index entry of the song's normalized title when that entry points at
    [id] and changes no other entry; it leaves the set list store, hence
    every id sequence, as it was; for every stored set list it removes the
    entries for [id] from that set list's position table; and
    [getSongsInSetList] on a stored set list then returns, in sequence
    order, the songs that still resolve, skipping [id]. *)
Theorem deleteSong_spec (st : State) (id : string) :
  (songs st !! id = None → deleteSong st id = Trap "Song not found") ∧
  (∀ song, songs st !! id = Some song →
     ∃ st', deleteSong st id = Ok st' ∧
       songs st' = delete id (songs st) ∧
       titleToId st' !! normalizeTitle (Song.title song) ≠ Some id ∧
       (∀ other, other ≠ id →
          titleToId st !! normalizeTitle (Song.title song) = Some other →
          titleToId st' !! normalizeTitle (Song.title song) = Some other) ∧
       (∀ key, key ≠ normalizeTitle (Song.title song) →
          titleToId st' !! key = titleToId st !! key) ∧
       setLists st' = setLists st ∧
       (∀ setListId setList, setLists st !! setListId = Some setList →
          setListSongPositions st' !! setListId
          = filter (λ pos, SetListSongPosition.songId pos ≠ id)
              <$> setListSongPositions st !! setListId ∧
          getSongsInSetList st' setListId
          = Ok (omap (λ songId, if decide (songId = id) then None
                                else songs st !! songId)
                  (SetList.songIds setList)))).
Proof.
  split.
  { intros Hnone. unfold deleteSong. by rewrite Hnone. }
  intros song Hsong. unfold deleteSong. rewrite Hsong.
  eexists. split; [reflexivity|].
  match goal with |- context [foldl ?f ?s ?l] =>
    pose proof (foldl_removeSong_frame l s id) as (Hs & Hl & Ht);
    pose proof (foldl_removeSong_positions l s id) as Hp
  end.
  rewrite Hs, Hl, Ht. cbn [songs setLists titleToId setListSongPositions] in *.
  split_and!.
  - done.
  - destruct (titleToId st !! normalizeTitle (Song.title song)) as [existing|] eqn:Hidx.
    + case_bool_decide as Hex.
      * rewrite lookup_delete_eq. discriminate.
      * rewrite Hidx. congruence.
    + rewrite Hidx. discriminate.
  - intros other Hne Hidx. rewrite Hidx.
    rewrite bool_decide_eq_false_2 by done. exact Hidx.
  - intros key Hkey.
    destruct (titleToId st !! normalizeTitle (Song.title song)) as [existing|];
      [case_bool_decide|]; try done.
    by rewrite lookup_delete_ne.
  - done.
  - intros setListId setList Hsl. split.
    + rewrite Hp. rewrite decide_True; [done|].
      apply elem_of_entries_keys. by exists setList.
    + unfold getSongsInSetList. rewrite Hs, Hl. cbn [songs setLists].
      rewrite Hsl. f_equal.
      rewrite foldl_collect_omap. simpl. apply omap_lookup_delete.
Qed.

Lemma deleteSong_spec_witness :
  deleteSong exampleStore "s9" = Trap "Song not found" ∧
  ∃ st', deleteSong exampleStore "s1" = Ok st' ∧
    songs st' !! "s1" = None ∧
    titleToId st' !! "x" ≠ Some "s1" ∧
    SetList.songIds <$> setLists st' !! "L" = Some ["s1"; "s2"] ∧
    setListSongPositions st' !! "L" = Some [SetListSongPosition.mk "s2" 2] ∧
    getSongsInSetList st' "L" = Ok [songY].
Proof.
  destruct (deleteSong_spec exampleStore "s9") as [Habsent _].
  destruct (deleteSong_spec exampleStore "s1") as [_ Hpresent].
  split; [apply Habsent; reflexivity|].
  destruct (Hpresent songX eq_refl)
    as (st' & Hdel & Hsongs & Hidx & _ & _ & Hlists & Hsets).
  destruct (Hsets "L" listA eq_refl) as [Hpos Hget].
  exists st'. split_and!.
  - exact Hdel.
  - rewrite Hsongs. reflexivity.
  - exact Hidx.
  - rewrite Hlists. reflexivity.
  - rewrite Hpos. reflexivity.
  - rewrite Hget. reflexivity.
Defined.

(** ** The identifier generator *)

Lemma randomPart_zero (now : Z) :
  Z.abs_N (Z.rem (now * 100000000) 100000000) = 0%N.
Proof. by rewrite Z.rem_mul. Qed.

Lemma generateId_unfold (now : Z) : generateId now = Text.ofInt now +:+ "0a".
Proof. unfold generateId. cbv zeta. rewrite randomPart_zero. reflexivity. Qed.

(** C8 (as stated, refuted). No two calls of the generator that read the
    same timestamp return different identifiers. *)
Lemma generateId_same_tick_never_differs :
  ¬ ∃ now1 now2 : Z, now1 = now2 ∧ generateId now1 ≠ generateId now2.
Proof. intros (now1 & now2 & Heq & Hne). apply Hne. by rewrite Heq. Qed.

(** C8 (amended). The generated identifier is the decimal timestamp
    followed by a suffix of at most nine characters that is computed from
    that same timestamp; the identifier handed out by [createSetList]
    therefore depends on the timestamp alone, not on the store or on the
    arguments, and two calls within one timestamp tick return equal
    identifiers. *)
Theorem generateId_determined_by_timestamp :
  (∀ now : Z, ∃ suffix : string,
     generateId now = Text.ofInt now +:+ suffix ∧ String.length suffix ≤ 9) ∧
  (∀ (now : Z) (st1 st2 : State) (name1 name2 : string)
     (songIds1 songIds2 : list string),
     (createSetList now st1 name1 songIds1).2
     = (createSetList now st2 name2 songIds2).2).
Proof.
  split.
  - intros now. exists "0a". split; [apply generateId_unfold|simpl; lia].
  - reflexivity.
Qed.

(** Two set lists created within one tick share their identifier, so the
    second replaces the first. *)
Example createSetList_same_tick_overwrites :
  let first := createSetList 1 emptyState "A" ["s1"] in
  let second := createSetList 1 first.1 "B" ["s2"] in
  first.2 = second.2 ∧
  exportData second.1 = Snapshot.mk [] [SetList.mk "10a" "B" ["s2"] 1 1].
Proof. split; reflexivity. Qed.

(** ** Title normalization *)















(** ** What each update call changes *)

Lemma foldl_removeSong_fileHandles {V : Type} (l : list (string * V)) st id :
  fileHandles (foldl (λ acc e, removeSongFromSetListPositions acc e.1 id) st l)
  = fileHandles st.
Proof.
  apply (foldl_keep (λ acc e, removeSongFromSetListPositions acc e.1 id) fileHandles).
  intros s e. unfold removeSongFromSetListPositions.
  by destruct (setListSongPositions s !! e.1).
Qed.

Lemma deleteSong_Ok st id st' :
  deleteSong st id = Ok st' →
  songs st' = delete id (songs st) ∧
  setLists st' = setLists st ∧
  (∀ key, is_Some (titleToId st' !! key) → titleToId st' !! key = titleToId st !! key) ∧
  fileHandles st' = fileHandles st ∧
  ∀ key, setListSongPositions st' !! key
         = if decide (is_Some (setLists st !! key))
           then filter (λ pos, SetListSongPosition.songId pos ≠ id)
                  <$> setListSongPositions st !! key
           else setListSongPositions st !! key.
Proof.
  unfold deleteSong. destruct (songs st !! id) as [song|]; [|done].
  intros [= <-].
  match goal with |- context [foldl ?f ?s ?l] =>
    pose proof (foldl_removeSong_frame l s id) as (Hs & Hl & Ht);
    pose proof (foldl_removeSong_positions l s id) as Hp;
    pose proof (foldl_removeSong_fileHandles l s id) as Hf
  end.
  rewrite Hs, Hl, Ht, Hf. cbn [songs setLists titleToId setListSongPositions fileHandles] in *.
  split_and!; try done.
  - intros key.
    destruct (titleToId st !! normalizeTitle (Song.title song)) as [existing|];
      [case_bool_decide|]; try done.
    destruct (decide (key = normalizeTitle (Song.title song))) as [->|Hne].
    + rewrite lookup_delete_eq. by intros [? ?].
    + by rewrite lookup_delete_ne.
  - intros key. rewrite Hp.
    destruct (decide (is_Some (setLists st !! key))) as [Hin|Hnin].
    + rewrite decide_True; [done|]. by apply elem_of_entries_keys.
    + rewrite decide_False; [done|]. by rewrite elem_of_entries_keys.
Qed.

Lemma moveSongInSetList_Ok st setListId songId newPosition st' :
  moveSongInSetList st setListId songId newPosition = Ok st' →
  songs st' = songs st ∧ setLists st' = setLists st ∧
  titleToId st' = titleToId st ∧ fileHandles st' = fileHandles st ∧
  ∀ key, setListSongPositions st' !! key
         = if decide (key = setListId)
           then imap (λ i pos, SetListSongPosition.mk
                                 (SetListSongPosition.songId pos) (i + 1))
                  <$> setListSongPositions st !! key
           else setListSongPositions st !! key.
Proof.
  unfold moveSongInSetList.
  destruct (setLists st !! setListId) as [setList|]; [|done].
  case_bool_decide; [done|]. intros [= <-].
  unfold reorderSetList, updateSongPositionInSetList.
  destruct (setListSongPositions st !! setListId) as [positions|] eqn:Hpos.
  - simpl. rewrite lookup_insert_eq. simpl. split_and!; try done.
    intros key. case_decide as Hk.
    + subst. rewrite lookup_insert_eq, Hpos. simpl. f_equal.
      rewrite foldl_snoc, imap_fmap. simpl.
      apply imap_ext. intros i pos _. simpl. by case_decide.
    + by rewrite !lookup_insert_ne.
  - rewrite Hpos. split_and!; try done.
    intros key. case_decide as Hk; [|done]. subst. by rewrite Hpos.
Qed.

Lemma saveSong_frame now st id title artist lyrics scrollSpeed tempo
    backgroundColor textColor textSize isBold linesPerScroll colorRanges
    replaceExisting image :
  let st' := (saveSong now st id title artist lyrics scrollSpeed tempo
                backgroundColor textColor textSize isBold linesPerScroll
                colorRanges replaceExisting image).1 in
  (∃ key song, songs st' = <[key := song]> (songs st) ∧
               titleToId st' = <[normalizeTitle title := key]> (titleToId st) ∧
               Song.id song = key) ∧
  setLists st' = setLists st ∧
  setListSongPositions st' = setListSongPositions st ∧
  fileHandles st' = fileHandles st.
Proof.
  unfold saveSong.
  destruct id as [songId|], (titleToId st !! normalizeTitle title) as [existing|];
    try destruct replaceExisting;
    cbn [fst withSong songs titleToId setLists setListSongPositions fileHandles];
    (split; [eexists _, _; split_and!; reflexivity|done]).
Qed.

Lemma last_filter_Some {A : Type} (P : A → Prop) `{!∀ x, Decision (P x)}
    (l : list A) (x : A) :
  last (filter P l) = Some x → P x ∧ x ∈ l.
Proof. intros Hlast%last_Some_elem_of. by apply list_elem_of_filter in Hlast. Qed.

Lemma run_snoc trace m : run (trace ++ [m]) = exec (run trace) m.
Proof. unfold run. by rewrite foldl_app. Qed.

Lemma run_invariant (P : State → Prop) :
  P emptyState → (∀ st m, P st → P (exec st m)) → ∀ trace, P (run trace).
Proof.
  intros Hinit Hstep trace.
  induction trace as [|m trace IH] using rev_ind; [done|].
  rewrite run_snoc. by apply Hstep.
Qed.

(** ** Invariants of the store *)

Lemma exec_wellKeyed st m : wellKeyed st → wellKeyed (exec st m).
Proof.
  intros [Hsongs Hlists]. destruct m as [now c]. unfold exec. cbn [fst snd].
  destruct c.
  - match goal with |- wellKeyed (?x).1 => set (res := x) end.
    destruct (saveSong_frame now st id title artist lyrics scrollSpeed tempo
                backgroundColor textColor textSize isBold linesPerScroll
                colorRanges replaceExisting image)
      as ((key & song & Hs & _ & Hid) & Hl & _).
    fold res in Hs, Hl. split.
    + rewrite Hs. by apply map_Forall_insert_2.
    + by rewrite Hl.
  - destruct (deleteSong st id) as [st'|] eqn:Hdel; simpl; [|done].
    apply deleteSong_Ok in Hdel as (Hs & Hl & _). split.
    + rewrite Hs. by apply map_Forall_delete.
    + by rewrite Hl.
  - split; [done|]. simpl. by apply map_Forall_insert_2.
  - unfold updateSetList. destruct (setLists st !! id); simpl; [|done].
    split; [done|]. simpl. by apply map_Forall_insert_2.
  - unfold deleteSetList. case_bool_decide; simpl; [|done].
    split; [done|]. simpl. by apply map_Forall_delete.
  - destruct (moveSongInSetList st setListId songId newPosition) as [st'|] eqn:Hmv;
      simpl; [|done].
    apply moveSongInSetList_Ok in Hmv as (Hs & Hl & _).
    split; [by rewrite Hs|by rewrite Hl].
  - split.
    + intros key song. rewrite importData_songs.
      rewrite (foldl_insert_last_empty Song.id (λ s, s)).
      destruct (last _) as [s|] eqn:Hlast; [|done]. intros [= <-].
      by apply last_filter_Some in Hlast as [? _].
    + intros key setList. rewrite importData_setLists.
      rewrite (foldl_insert_last_empty SetList.id (λ l, l)).
      destruct (last _) as [s|] eqn:Hlast; [|done]. intros [= <-].
      by apply last_filter_Some in Hlast as [? _].
  - done.
Qed.

Lemma run_wellKeyed (trace : list (Z * Call)) : wellKeyed (run trace).
Proof.
  apply run_invariant; [|apply exec_wellKeyed].
  split; apply map_Forall_empty.
Qed.

(** X2. In every state the actor can reach from its initial, empty state,
    each song is stored under its own [id] and each set list under its
    own [id]. *)
Theorem reachable_wellKeyed (trace : list (Z * Call)) : wellKeyed (run trace).
Proof. apply run_wellKeyed. Qed.

Lemma exec_tablesOwned st m : tablesOwned st → tablesOwned (exec st m).
Proof.
  intros Hown. destruct m as [now c]. unfold exec. cbn [fst snd].
  unfold tablesOwned in *. destruct c.
  - destruct (saveSong_frame now st id title artist lyrics scrollSpeed tempo
                backgroundColor textColor textSize isBold linesPerScroll
                colorRanges replaceExisting image) as (_ & Hl & Hp & _).
    by rewrite Hl, Hp.
  - destruct (deleteSong st id) as [st'|] eqn:Hdel; simpl; [|done].
    apply deleteSong_Ok in Hdel as (_ & Hl & _ & _ & Hp).
    intros key positions. rewrite Hl, Hp.
    case_decide as Hin; [done|]. apply Hown.
  - simpl. intros key positions Hkey. apply lookup_insert_is_Some'. right.
    by eapply Hown.
  - unfold updateSetList. destruct (setLists st !! id); simpl; [|done].
    intros key positions Hkey. apply lookup_insert_is_Some'. right.
    by eapply Hown.
  - unfold deleteSetList. case_bool_decide; simpl; [|done].
    intros key positions Hkey. apply lookup_delete_Some in Hkey as [Hne Hkey].
    rewrite lookup_delete_ne by done. by eapply Hown.
  - destruct (moveSongInSetList st setListId songId newPosition) as [st'|] eqn:Hmv;
      simpl; [|done].
    apply moveSongInSetList_Ok in Hmv as (_ & Hl & _ & _ & Hp).
    intros key positions. rewrite Hl, Hp.
    case_decide; [|apply Hown].
    destruct (setListSongPositions st !! key) as [old|] eqn:Hold; [|done].
    intros _. by eapply Hown.
  - intros key positions. rewrite importData_positions, importData_setLists.
    rewrite (foldl_insert_last_empty SetList.id
               (λ l, positionsFrom 0 (SetList.songIds l))).
    rewrite (foldl_insert_last_empty SetList.id (λ l, l)).
    by destruct (last _).
  - done.
Qed.

(** X3. In every reachable state each position table belongs to a stored set
    list: no table outlives its set list. *)
Theorem reachable_tablesOwned (trace : list (Z * Call)) : tablesOwned (run trace).
Proof. apply run_invariant; [apply map_Forall_empty|apply exec_tablesOwned]. Qed.

Lemma ascendingPositions_numbered {A : Type} (f : A → string) (l : list A) (n : nat) :
  Forall (λ pos, n + 1 ≤ SetListSongPosition.position pos)
    (imap (λ i x, SetListSongPosition.mk (f x) (n + i + 1)) l) ∧
  StronglySorted
    (λ a b, SetListSongPosition.position a < SetListSongPosition.position b)
    (imap (λ i x, SetListSongPosition.mk (f x) (n + i + 1)) l).
Proof.
  revert n. induction l as [|x l IH]; intros n; [split; constructor|].
  rewrite imap_cons.
  rewrite (imap_ext _ (λ i y, SetListSongPosition.mk (f y) (S n + i + 1)))
    by (intros i y _; simpl; f_equal; lia).
  destruct (IH (S n)) as [Hge Hsorted]. split.
  - constructor; [simpl; lia|]. eapply Forall_impl; [exact Hge|]. simpl. lia.
  - constructor; [done|]. eapply Forall_impl; [exact Hge|]. simpl. lia.
Qed.

Lemma ascendingPositions_renumber {A : Type} (f : A → string) (l : list A) :
  ascendingPositions (imap (λ i x, SetListSongPosition.mk (f x) (i + 1)) l).
Proof.
  destruct (ascendingPositions_numbered f l 0) as [Hge Hsorted].
  rewrite (imap_ext _ (λ i x, SetListSongPosition.mk (f x) (i + 1))) in Hge, Hsorted
    by done.
  split; [|done]. eapply Forall_impl; [exact Hge|]. simpl. lia.
Qed.

Lemma ascendingPositions_filter (P : SetListSongPosition.t → Prop)
    `{!∀ x, Decision (P x)} (positions : list SetListSongPosition.t) :
  ascendingPositions positions → ascendingPositions (filter P positions).
Proof.
  intros [Hge Hsorted]. split.
  - apply Forall_forall. intros pos [_ Hin]%list_elem_of_filter.
    by eapply Forall_forall in Hge.
  - induction Hsorted as [|a l Hs IH Ha]; [constructor|].
    apply Forall_cons in Hge as [_ Hge].
    rewrite filter_cons. case_decide; [|by apply IH].
    constructor; [by apply IH|].
    apply Forall_forall. intros pos [_ Hin]%list_elem_of_filter.
    by eapply Forall_forall in Ha.
Qed.

Lemma exec_tablesAscending st m : tablesAscending st → tablesAscending (exec st m).
Proof.
  intros Hasc. destruct m as [now c]. unfold exec. cbn [fst snd].
  unfold tablesAscending in *. destruct c.
  - destruct (saveSong_frame now st id title artist lyrics scrollSpeed tempo
                backgroundColor textColor textSize isBold linesPerScroll
                colorRanges replaceExisting image) as (_ & _ & Hp & _).
    by rewrite Hp.
  - destruct (deleteSong st id) as [st'|] eqn:Hdel; simpl; [|done].
    apply deleteSong_Ok in Hdel as (_ & _ & _ & _ & Hp).
    intros key positions. rewrite Hp.
    case_decide; [|apply Hasc].
    destruct (setListSongPositions st !! key) as [old|] eqn:Hold; [|done].
    intros [= <-]. apply ascendingPositions_filter. by eapply Hasc.
  - done.
  - unfold updateSetList. by destruct (setLists st !! id).
  - unfold deleteSetList. case_bool_decide; simpl; [|done].
    by apply map_Forall_delete.
  - destruct (moveSongInSetList st setListId songId newPosition) as [st'|] eqn:Hmv;
      simpl; [|done].
    apply moveSongInSetList_Ok in Hmv as (_ & _ & _ & _ & Hp).
    intros key positions. rewrite Hp.
    case_decide; [|apply Hasc].
    destruct (setListSongPositions st !! key) as [old|]; [|done].
    intros [= <-]. apply ascendingPositions_renumber.
  - intros key positions. rewrite importData_positions.
    rewrite (foldl_insert_last_empty SetList.id
               (λ l, positionsFrom 0 (SetList.songIds l))).
    destruct (last _) as [l|]; [|done]. intros [= <-].
    rewrite positionsFrom_imap.
    rewrite (imap_ext _ (λ i x, SetListSongPosition.mk (id x) (i + 1))) by done.
    apply ascendingPositions_renumber.
  - done.
Qed.

(** X4. In every reachable state the positions recorded in a table are at
    least 1 and strictly increasing along the table, so no two entries of
    a table share a position. *)
Theorem reachable_tablesAscending (trace : list (Z * Call)) :
  tablesAscending (run trace).
Proof. apply run_invariant; [apply map_Forall_empty|apply exec_tablesAscending]. Qed.



(** ** Calls that leave tables and file handles alone *)

(** X6. [saveSong], [createSetList], [updateSetList] and
    [saveFileHandleReference] never change a position table: in
    particular replacing a set list's id sequence leaves its table as it
    was. *)
Theorem exec_keeps_tables (st : State) (now : Z) (c : Call) :
  writesTables c = false →
  setListSongPositions (exec st (now, c)) = setListSongPositions st.
Proof.
  intros Hc. unfold exec. cbn [fst snd]. destruct c; try discriminate Hc.
  - by destruct (saveSong_frame now st id title artist lyrics scrollSpeed tempo
                   backgroundColor textColor textSize isBold linesPerScroll
                   colorRanges replaceExisting image) as (_ & _ & Hp & _).
  - done.
  - unfold updateSetList. by destruct (setLists st !! id).
  - done.
Qed.

Lemma exec_keeps_tables_witness :
  SetList.songIds <$> setLists (exec exampleStore (300%Z, UpdateSetList "L" "B" ["s2"])) !! "L"
  = Some ["s2"] ∧
  setListSongPositions (exec exampleStore (300%Z, UpdateSetList "L" "B" ["s2"])) !! "L"
  = Some [SetListSongPosition.mk "s1" 1; SetListSongPosition.mk "s2" 2].
Proof.
  split; [reflexivity|].
  rewrite (exec_keeps_tables exampleStore 300 (UpdateSetList "L" "B" ["s2"]) eq_refl).
  reflexivity.
Defined.

(** X7. Only [saveFileHandleReference] changes the file handle references;
    every other update call, [importData] included, keeps them all. *)
Theorem exec_keeps_fileHandles (st : State) (now : Z) (c : Call) :
  writesFileHandles c = false →
  fileHandles (exec st (now, c)) = fileHandles st.
Proof.
  intros Hc. unfold exec. cbn [fst snd]. destruct c; try discriminate Hc.
  - by destruct (saveSong_frame now st id title artist lyrics scrollSpeed tempo
                   backgroundColor textColor textSize isBold linesPerScroll
                   colorRanges replaceExisting image) as (_ & _ & _ & Hf).
  - destruct (deleteSong st id) as [st'|] eqn:Hdel; simpl; [|done].
    by apply deleteSong_Ok in Hdel as (_ & _ & _ & Hf & _).
  - done.
  - unfold updateSetList. by destruct (setLists st !! id).
  - unfold deleteSetList. by case_bool_decide.
  - destruct (moveSongInSetList st setListId songId newPosition) as [st'|] eqn:Hmv;
      simpl; [|done].
    by apply moveSongInSetList_Ok in Hmv as (_ & _ & _ & Hf & _).
  - unfold importData.
    rewrite (foldl_keep importSetList fileHandles) by done.
    by rewrite (foldl_keep importSong fileHandles).
Qed.

Lemma exec_keeps_fileHandles_witness :
  getFileHandleReference
    (exec (saveFileHandleReference emptyState "h1" "Songs/x.json" false)
          (5%Z, ImportData (Snapshot.mk [songX] [listA]))) "h1"
  = Some (FileHandleReference.mk "Songs/x.json" false).
Proof.
  unfold getFileHandleReference.
  rewrite (exec_keeps_fileHandles
             (saveFileHandleReference emptyState "h1" "Songs/x.json" false) 5
             (ImportData (Snapshot.mk [songX] [listA])) eq_refl).
  reflexivity.
Defined.

(** ** Deleting a set list *)

(** X8. [deleteSetList id] traps when [id] is not stored.  Otherwise it
    removes the set list together with its position table and nothing
    else, and afterwards every set list call on [id] traps with
    "Set list not found". *)
Theorem deleteSetList_spec (st : State) (id : string) :
  (setLists st !! id = None → deleteSetList st id = Trap "Set list not found") ∧
  (∀ setList, setLists st !! id = Some setList →
     ∃ st', deleteSetList st id = Ok st' ∧
       setLists st' = delete id (setLists st) ∧
       setListSongPositions st' = delete id (setListSongPositions st) ∧
       songs st' = songs st ∧ titleToId st' = titleToId st ∧
       getSetListSongInfo st' id = Trap "Set list not found" ∧
       getSongsInSetList st' id = Trap "Set list not found" ∧
       getSetListSongCount st' id = Trap "Set list not found" ∧
       deleteSetList st' id = Trap "Set list not found" ∧
       (∀ now name songIds,
          updateSetList now st' id name songIds = Trap "Set list not found") ∧
       (∀ songId newPosition,
          moveSongInSetList st' id songId newPosition = Trap "Set list not found")).
Proof.
  split.
  - intros Hnone. unfold deleteSetList. rewrite Hnone.
    rewrite bool_decide_eq_false_2; [done|]. by intros [? ?].
  - intros setList Hsome. unfold deleteSetList at 1. rewrite Hsome.
    rewrite bool_decide_eq_true_2 by eauto. simpl.
    eexists. split; [reflexivity|].
    unfold getSetListSongInfo, getSongsInSetList, getSetListSongCount,
      deleteSetList, updateSetList, moveSongInSetList. simpl.
    rewrite lookup_delete_eq.
    rewrite bool_decide_eq_false_2 by (by intros [? ?]). by split_and!.
Qed.

Lemma deleteSetList_spec_witness :
  deleteSetList exampleStore "M" = Trap "Set list not found" ∧
  ∃ st', deleteSetList exampleStore "L" = Ok st' ∧
    setListSongPositions st' !! "L" = None ∧
    getSongsInSetList st' "L" = Trap "Set list not found".
Proof.
  destruct (deleteSetList_spec exampleStore "M") as [Habsent _].
  destruct (deleteSetList_spec exampleStore "L") as [_ Hpresent].
  split; [apply Habsent; reflexivity|].
  destruct (Hpresent listA eq_refl) as (st' & Hdel & _ & Hpos & _ & _ & _ & Hget & _).
  exists st'. split; [exact Hdel|]. split; [|exact Hget].
  rewrite Hpos. reflexivity.
Defined.

(** ** Listing the songs *)

Lemma insertByTitle_Permutation song l : insertByTitle song l ≡ₚ song :: l.
Proof.
  induction l as [|x l IH]; simpl; [done|].
  case_bool_decide; [done|]. by rewrite IH, Permutation_swap.
Qed.

Lemma sortByTitle_Permutation l : sortByTitle l ≡ₚ l.
Proof.
  induction l as [|x l IH]; simpl; [done|].
  by rewrite insertByTitle_Permutation, IH.
Qed.

Lemma insertByTitle_sorted song l :
  StronglySorted (λ a b, String.le (Song.title a) (Song.title b)) l →
  StronglySorted (λ a b, String.le (Song.title a) (Song.title b))
    (insertByTitle song l).
Proof.
  induction 1 as [|x l Hs IH Hx]; simpl; [by repeat constructor|].
  case_bool_decide as Hle.
  - constructor; [by constructor|]. constructor; [done|].
    eapply Forall_impl; [exact Hx|]. intros y Hy. by etrans.
  - constructor; [done|]. rewrite insertByTitle_Permutation.
    constructor; [|done].
    by destruct (total String.le (Song.title song) (Song.title x)).
Qed.

Lemma elem_of_values {V : Type} (m : gmap string V) (v : V) :
  v ∈ values m ↔ ∃ key, m !! key = Some v.
Proof.
  unfold values, entries. rewrite merge_sort_Permutation, list_elem_of_fmap. split.
  - intros ([k x] & -> & Hin). apply elem_of_map_to_list in Hin. by exists k.
  - intros [k Hk]. exists (k, v). split; [done|]. by apply elem_of_map_to_list.
Qed.

Lemma length_values {V : Type} (m : gmap string V) : length (values m) = size m.
Proof.
  unfold values, entries.
  by rewrite length_fmap, merge_sort_Permutation, length_map_to_list.
Qed.

(** X9. [getAllSongs] returns every stored song exactly once, in ascending
    order of title. *)
Theorem getAllSongs_sorted (st : State) :
  getAllSongs st ≡ₚ values (songs st) ∧
  length (getAllSongs st) = size (songs st) ∧
  StronglySorted (λ a b, String.le (Song.title a) (Song.title b)) (getAllSongs st) ∧
  ∀ song, song ∈ getAllSongs st ↔ ∃ key, songs st !! key = Some song.
Proof.
  unfold getAllSongs. split_and!.
  - apply sortByTitle_Permutation.
  - by rewrite sortByTitle_Permutation, length_values.
  - induction (values (songs st)) as [|x l IH]; simpl; [constructor|].
    by apply insertByTitle_sorted.
  - intros song. rewrite sortByTitle_Permutation. apply elem_of_values.
Qed.

(** ** Export followed by import *)

Lemma last_filter_values {V : Type} (key : V → string) (m : gmap string V)
    (k : string) :
  map_Forall (λ i v, key v = i) m →
  last (filter (λ v, key v = k) (values m)) = m !! k.
Proof.
  intros Hkeyed.
  destruct (last (filter (λ v, key v = k) (values m))) as [v|] eqn:Hlast.
  - apply last_filter_Some in Hlast as [Hk Hin].
    apply elem_of_values in Hin as [i Hi].
    pose proof (Hkeyed i v Hi) as Hiv. simpl in Hiv. congruence.
  - apply last_None in Hlast.
    destruct (m !! k) as [v|] eqn:Hmk; [|done].
    assert (v ∈ filter (λ v, key v = k) (values m)) as Hin.
    { apply list_elem_of_filter. split; [by apply (Hkeyed k v)|].
      apply elem_of_values. by exists k. }
    rewrite Hlast in Hin. by apply elem_of_nil in Hin.
Qed.

(** X10. Importing what [exportData] returned restores the song store and the
    set list store of any reachable state, whatever the importing actor
    held before; exporting again returns the same snapshot. *)
Theorem export_import_roundtrip (trace : list (Z * Call)) (st0 : State) :
  songs (importData st0 (exportData (run trace))) = songs (run trace) ∧
  setLists (importData st0 (exportData (run trace))) = setLists (run trace) ∧
  exportData (importData st0 (exportData (run trace))) = exportData (run trace).
Proof.
  destruct (run_wellKeyed trace) as [Hsongs Hlists].
  assert (songs (importData st0 (exportData (run trace))) = songs (run trace)) as Hs.
  { apply map_eq. intros k. rewrite importData_songs.
    rewrite (foldl_insert_last_empty Song.id (λ s, s)). simpl.
    rewrite (last_filter_values Song.id) by done. by destruct (_ !! k). }
  assert (setLists (importData st0 (exportData (run trace))) = setLists (run trace))
    as Hl.
  { apply map_eq. intros k. rewrite importData_setLists.
    rewrite (foldl_insert_last_empty SetList.id (λ l, l)). simpl.
    rewrite (last_filter_values SetList.id) by done. by destruct (_ !! k). }
  split_and!; [done|done|]. unfold exportData at 1 3. by rewrite Hs, Hl.
Qed.

(** ** Identifiers of different ticks *)

Lemma string_append_cons a s t : String a s +:+ t = String a (s +:+ t).
Proof. reflexivity. Qed.

Lemma string_length_append s t :
  String.length (s +:+ t) = String.length s + String.length t.
Proof.
  induction s as [|a s IH]; [done|].
  rewrite string_append_cons. simpl. by rewrite IH.
Qed.

Lemma string_append_inv_tail s1 s2 t : s1 +:+ t = s2 +:+ t → s1 = s2.
Proof.
  revert s2. induction s1 as [|a s1 IH]; intros [|b s2] Heq.
  - done.
  - apply (f_equal String.length) in Heq.
    rewrite !string_length_append in Heq. simpl in Heq. lia.
  - apply (f_equal String.length) in Heq.
    rewrite !string_length_append in Heq. simpl in Heq. lia.
  - rewrite !string_append_cons in Heq. injection Heq as -> Heq.
    f_equal. by apply IH.
Qed.

Lemma to_int_proper (z : Z) :
  Z.to_int z ≠ Decimal.Pos Decimal.Nil ∧ Z.to_int z ≠ Decimal.Neg Decimal.Nil.
Proof.
  destruct z as [|p|p]; simpl; split; try discriminate;
    intros [= Hnil]; by apply DecimalPos.Unsigned.to_uint_nonnil in Hnil.
Qed.

Lemma ofInt_inj (a b : Z) : Text.ofInt a = Text.ofInt b → a = b.
Proof.
  unfold Text.ofInt. intros Heq. apply DecimalZ.to_int_inj.
  destruct (to_int_proper a) as [Ha1 Ha2], (to_int_proper b) as [Hb1 Hb2].
  pose proof (NilZero.isi _ Ha1 Ha2) as Ha.
  pose proof (NilZero.isi _ Hb1 Hb2) as Hb.
  rewrite Heq in Ha. congruence.
Qed.

(** X11. Identifiers generated at different timestamps are different. *)
Theorem generateId_inj (now1 now2 : Z) :
  generateId now1 = generateId now2 → now1 = now2.
Proof.
  rewrite !generateId_unfold. intros Heq.
  by apply ofInt_inj, (string_append_inv_tail _ _ "0a").
Qed.

Lemma generateId_inj_witness :
  generateId 41 = generateId (40 + 1) ∧ (41 = 40 + 1)%Z.
Proof.
  split; [reflexivity|]. apply (generateId_inj 41 (40 + 1)). reflexivity.
Defined.

(** ** Building a position table entry by entry *)

Lemma positionsFrom_app (i : nat) (l1 l2 : list string) :
  positionsFrom i (l1 ++ l2) = positionsFrom i l1 ++ positionsFrom (i + length l1) l2.
Proof.
  revert i. induction l1 as [|x l1 IH]; intros i; simpl.
  - by rewrite Nat.add_0_r.
  - rewrite IH. do 3 f_equal. lia.
Qed.

Lemma length_positionsFrom (i : nat) (l : list string) :
  length (positionsFrom i l) = length l.
Proof. revert i. induction l as [|x l IH]; intros i; simpl; [done|]. by rewrite IH. Qed.

(** X12. Adding the songs of an id sequence one by one with
    [addSongToSetListPositions], starting without a table, builds the
    table that [importData] builds for that sequence, and touches no other
    table. *)
Theorem addSongToSetListPositions_builds_table (st : State) (setListId : string)
    (songIds : list string) :
  setListSongPositions st !! setListId = None →
  default [] (setListSongPositions
                (foldl (λ acc songId, addSongToSetListPositions acc setListId songId)
                       st songIds) !! setListId)
  = positionsFrom 0 songIds ∧
  ∀ other, other ≠ setListId →
    setListSongPositions
      (foldl (λ acc songId, addSongToSetListPositions acc setListId songId)
             st songIds) !! other
    = setListSongPositions st !! other.
Proof.
  intros Hnone.
  induction songIds as [|x l IH] using rev_ind.
  - simpl. by rewrite Hnone.
  - rewrite foldl_app. simpl. destruct IH as [IHt IHo].
    remember (foldl (λ acc songId, addSongToSetListPositions acc setListId songId)
                st l) as st1 eqn:Hst1.
    unfold addSongToSetListPositions. simpl. split.
    + rewrite lookup_insert_eq. simpl.
      rewrite positionsFrom_app. simpl.
      assert (length (default [] (setListSongPositions st1 !! setListId)) = length l)
        as Hlen by (by rewrite IHt, length_positionsFrom).
      destruct (setListSongPositions st1 !! setListId) as [table|];
        simpl in IHt, Hlen.
      * subst table. by rewrite length_positionsFrom.
      * by rewrite <- IHt, <- Hlen.
    + intros other Hne. rewrite lookup_insert_ne by done. by apply IHo.
Qed.

Lemma addSongToSetListPositions_builds_table_witness :
  default [] (setListSongPositions
                (foldl (λ acc songId, addSongToSetListPositions acc "L" songId)
                       emptyState ["s1"; "s2"]) !! "L")
  = default [] (setListSongPositions exampleStore !! "L").
Proof.
  destruct (addSongToSetListPositions_builds_table emptyState "L" ["s1"; "s2"])
    as [Htable _]; [reflexivity|].
  rewrite Htable. reflexivity.
Defined.

(** ** Songs of a set list *)

Lemma omap_lookup_keyed (m : gmap string Song.t) (ids : list string) :
  map_Forall (λ key song, Song.id song = key) m →
  Song.id <$> omap (λ songId, m !! songId) ids `sublist_of` ids ∧
  Forall (λ song, m !! Song.id song = Some song) (omap (λ songId, m !! songId) ids) ∧
  (Forall (λ songId, is_Some (m !! songId)) ids →
   Song.id <$> omap (λ songId, m !! songId) ids = ids).
Proof.
  intros Hkeyed. induction ids as [|x ids (IHs & IHf & IHa)]; csimpl.
  - split_and!; by constructor.
  - destruct (m !! x) as [song|] eqn:Hx; csimpl.
    + pose proof (Hkeyed x song Hx) as Hid. simpl in Hid. split_and!.
      * rewrite Hid. by constructor.
      * constructor; [by rewrite Hid|done].
      * intros [_ Hall]%Forall_cons. by rewrite Hid, IHa.
    + split_and!; [by apply sublist_cons|done|].
      intros [[song Hsong] _]%Forall_cons. congruence.
Qed.

(** X13. In every reachable state [getSongsInSetList] on a stored set list
    returns stored songs whose ids form a subsequence of the set list's id
    sequence (duplicates kept, unresolved ids dropped); when every id
    resolves, the ids of the result are the id sequence itself. *)
Theorem getSongsInSetList_subsequence (trace : list (Z * Call))
    (setListId : string) (setList : SetList.t) :
  setLists (run trace) !! setListId = Some setList →
  ∃ result, getSongsInSetList (run trace) setListId = Ok result ∧
    Song.id <$> result `sublist_of` SetList.songIds setList ∧
    Forall (λ song, songs (run trace) !! Song.id song = Some song) result ∧
    (Forall (λ songId, is_Some (songs (run trace) !! songId)) (SetList.songIds setList) →
     Song.id <$> result = SetList.songIds setList).
Proof.
  intros Hsl. unfold getSongsInSetList. rewrite Hsl.
  eexists. split; [reflexivity|].
  rewrite foldl_collect_omap. simpl.
  apply omap_lookup_keyed. apply run_wellKeyed.
Qed.

Lemma getSongsInSetList_subsequence_witness :
  ∃ result,
    getSongsInSetList
      (run [(0%Z, ImportData (Snapshot.mk [songY] [listA]))]) "L" = Ok result ∧
    Song.id <$> result `sublist_of` ["s1"; "s2"].
Proof.
  destruct (getSongsInSetList_subsequence
              [(0%Z, ImportData (Snapshot.mk [songY] [listA]))] "L" listA eq_refl)
    as (result & Hget & Hsub & _).
  exists result. split; [exact Hget|exact Hsub].
Defined.

(** ** Insertion-ordered maps *)

Section JsMap_facts.
Context {V : Type}.
Implicit Types (m : list (string * V)) (k : string) (v : V).

Lemma JsMap_get_set_eq m k v : JsMap.get (JsMap.set m k v) k = Some v.
Proof.
  induction m as [|[k' v'] m IH]; simpl.
  - by rewrite decide_True.
  - destruct (decide (k' = k)) as [->|Hne]; simpl.
    + by rewrite decide_True.
    + by rewrite decide_False.
Qed.

Lemma JsMap_get_set_ne m k k' v :
  k ≠ k' → JsMap.get (JsMap.set m k v) k' = JsMap.get m k'.
Proof.
  intros Hne. induction m as [|[k0 v0] m IH]; simpl.
  - by rewrite decide_False.
  - destruct (decide (k0 = k)) as [->|Hne0]; simpl.
    + by rewrite !decide_False.
    + by rewrite IH.
Qed.

Lemma JsMap_get_None m k : JsMap.get m k = None ↔ k ∉ m.*1.
Proof.
  induction m as [|[k' v'] m IH]; simpl.
  - split; [intros _; apply not_elem_of_nil|done].
  - rewrite not_elem_of_cons. destruct (decide (k' = k)) as [->|Hne].
    + split; [done|]. by intros [? _].
    + rewrite IH. split; [by split|by intros [_ ?]].
Qed.

Lemma JsMap_get_Some m k v : JsMap.get m k = Some v → (k, v) ∈ m.
Proof.
  induction m as [|[k' v'] m IH]; simpl; [done|].
  destruct (decide (k' = k)) as [->|Hne].
  - intros [= ->]. apply list_elem_of_here.
  - intros Hget. apply list_elem_of_further. by apply IH.
Qed.

Lemma JsMap_set_absent m k v :
  JsMap.get m k = None → JsMap.set m k v = m ++ [(k, v)].
Proof.
  induction m as [|[k' v'] m IH]; simpl; [done|].
  destruct (decide (k' = k)) as [->|Hne]; [done|].
  intros Hget. by rewrite IH.
Qed.

Lemma JsMap_set_present_keys m k v :
  is_Some (JsMap.get m k) → (JsMap.set m k v).*1 = m.*1.
Proof.
  induction m as [|[k' v'] m IH]; cbn [JsMap.get JsMap.set]; [by intros [? ?]|].
  destruct (decide (k' = k)) as [->|Hne]; [done|].
  intros Hget. rewrite !fmap_cons. by rewrite IH.
Qed.

Lemma JsMap_elem_of_set m k v k' v' :
  (k', v') ∈ JsMap.set m k v → (k', v') = (k, v) ∨ (k', v') ∈ m.
Proof.
  induction m as [|[k0 v0] m IH]; simpl.
  - intros ->%list_elem_of_singleton. by left.
  - destruct (decide (k0 = k)) as [->|Hne].
    + intros [->|Hin]%elem_of_cons; [by left|]. right. by apply list_elem_of_further.
    + intros [->|Hin]%elem_of_cons; [right; apply list_elem_of_here|].
      destruct (IH Hin) as [->|Hm]; [by left|]. right. by apply list_elem_of_further.
Qed.

Lemma JsMap_NoDup_set m k v : NoDup m.*1 → NoDup (JsMap.set m k v).*1.
Proof.
  intros Hnd. destruct (JsMap.get m k) as [old|] eqn:Hget.
  - by rewrite JsMap_set_present_keys.
  - rewrite JsMap_set_absent, fmap_app by done. simpl.
    apply NoDup_app. split_and!; [done| |apply NoDup_singleton].
    intros x Hx ->%list_elem_of_singleton. by apply JsMap_get_None in Hget.
Qed.

End JsMap_facts.

(** ** Deduplicating songs *)

Lemma dedupeStep_inv (songMap : list (string * Song.t)) (seen : list Song.t)
    (song : Song.t) :
  NoDup songMap.*1 →
  Forall (λ e, Song.id e.2 = e.1 ∧ e.2 ∈ seen) songMap →
  Forall (λ s, ∃ s', JsMap.get songMap (Song.id s) = Some s' ∧
                     (Song.updatedAt s ≤ Song.updatedAt s')%Z) seen →
  NoDup (Hooks.dedupeStep songMap song).*1 ∧
  Forall (λ e, Song.id e.2 = e.1 ∧ e.2 ∈ seen ++ [song])
    (Hooks.dedupeStep songMap song) ∧
  Forall (λ s, ∃ s', JsMap.get (Hooks.dedupeStep songMap song) (Song.id s) = Some s' ∧
                     (Song.updatedAt s ≤ Song.updatedAt s')%Z) (seen ++ [song]).
Proof.
  intros Hnd Hin Hmax.
  assert (Forall (λ e, Song.id e.2 = e.1 ∧ e.2 ∈ seen ++ [song]) songMap) as Hin'.
  { eapply Forall_impl; [exact Hin|]. intros e [? ?]. split; [done|].
    apply elem_of_app. by left. }
  assert (Forall (λ e, Song.id e.2 = e.1 ∧ e.2 ∈ seen ++ [song])
            (JsMap.set songMap (Song.id song) song)) as Hset.
  { apply Forall_forall. intros [k s] Hks.
    apply JsMap_elem_of_set in Hks as [[= -> ->]|Hks].
    - split; [done|]. apply elem_of_app. right. apply list_elem_of_here.
    - by eapply Forall_forall in Hin'. }
  assert (∀ bound,
    (∀ s', JsMap.get songMap (Song.id song) = Some s' →
           (Song.updatedAt s' ≤ bound)%Z) →
    (bound ≤ Song.updatedAt song)%Z →
    Forall (λ s, ∃ s', JsMap.get (JsMap.set songMap (Song.id song) song) (Song.id s)
                       = Some s' ∧ (Song.updatedAt s ≤ Song.updatedAt s')%Z)
      (seen ++ [song])) as Hreplace.
  { intros bound Hold Hbound. apply Forall_app. split.
    - eapply Forall_impl; [exact Hmax|]. intros s (s' & Hget & Hle).
      destruct (decide (Song.id song = Song.id s)) as [Heq|Hne].
      + exists song. rewrite <- Heq, JsMap_get_set_eq. split; [done|].
        rewrite <- Heq in Hget. specialize (Hold s' Hget). lia.
      + exists s'. by rewrite JsMap_get_set_ne.
    - constructor; [|constructor]. exists song. by rewrite JsMap_get_set_eq. }
  unfold Hooks.dedupeStep.
  destruct (JsMap.get songMap (Song.id song)) as [existing|] eqn:Hget.
  - destruct (Z.ltb_spec (Song.updatedAt existing) (Song.updatedAt song)) as [Hlt|Hge].
    + split_and!; [by apply JsMap_NoDup_set|done|].
      apply (Hreplace (Song.updatedAt existing)); [|lia].
      by intros s' [= <-].
    + split_and!; [done|done|]. apply Forall_app. split; [done|].
      constructor; [|constructor]. by exists existing.
  - split_and!; [by apply JsMap_NoDup_set|done|].
    apply (Hreplace (Song.updatedAt song)); [done|lia].
Qed.

Lemma dedupe_fold_inv (songs : list Song.t) :
  NoDup (foldl Hooks.dedupeStep [] songs).*1 ∧
  Forall (λ e, Song.id e.2 = e.1 ∧ e.2 ∈ songs) (foldl Hooks.dedupeStep [] songs) ∧
  Forall (λ s, ∃ s', JsMap.get (foldl Hooks.dedupeStep [] songs) (Song.id s) = Some s' ∧
                     (Song.updatedAt s ≤ Song.updatedAt s')%Z) songs.
Proof.
  induction songs as [|song songs (IH1 & IH2 & IH3)] using rev_ind.
  - simpl. split_and!; constructor.
  - rewrite foldl_app. simpl. by apply dedupeStep_inv.
Qed.

Lemma dedupe_ids (songs : list Song.t) :
  Song.id <$> Hooks.dedupeSongs songs = (foldl Hooks.dedupeStep [] songs).*1.
Proof.
  destruct (dedupe_fold_inv songs) as (_ & Hin & _).
  unfold Hooks.dedupeSongs, JsMap.values.
  induction (foldl Hooks.dedupeStep [] songs) as [|[k s] m IH]; [done|].
  apply Forall_cons in Hin as [[Hid _] Hin]. rewrite !fmap_cons.
  cbn [fst snd] in *. by rewrite Hid, IH.
Qed.

Lemma dedupeSongs_facts (songs : list Song.t) :
  NoDup (Song.id <$> Hooks.dedupeSongs songs) ∧
  Forall (λ s, s ∈ songs) (Hooks.dedupeSongs songs) ∧
  Forall (λ s, Exists (λ s', Song.id s' = Song.id s ∧
                             (Song.updatedAt s ≤ Song.updatedAt s')%Z)
                 (Hooks.dedupeSongs songs)) songs.
Proof.
  destruct (dedupe_fold_inv songs) as (Hnd & Hin & Hmax).
  split_and!.
  - by rewrite dedupe_ids.
  - unfold Hooks.dedupeSongs, JsMap.values. apply Forall_fmap.
    eapply Forall_impl; [exact Hin|]. by intros e [_ ?].
  - eapply Forall_impl; [exact Hmax|]. intros s (s' & Hget & Hle).
    apply Exists_exists. exists s'. split.
    + unfold Hooks.dedupeSongs, JsMap.values.
      apply list_elem_of_fmap. exists (Song.id s, s'). split; [done|].
      by apply JsMap_get_Some.
    + split; [|done].
      apply JsMap_get_Some in Hget. eapply Forall_forall in Hin; [|exact Hget].
      by destruct Hin.
Qed.

(** X14. The deduplication keeps one song per id: the ids of the result are
    pairwise different, every song of the result is one of the given
    songs, and for every given song the result holds a song of the same id
    that was updated at least as late. *)
Theorem dedupeSongs_spec (songs : list Song.t) :
  NoDup (Song.id <$> Hooks.dedupeSongs songs) ∧
  Forall (λ s, s ∈ songs) (Hooks.dedupeSongs songs) ∧
  Forall (λ s, Exists (λ s', Song.id s' = Song.id s ∧
                             (Song.updatedAt s ≤ Song.updatedAt s')%Z)
                 (Hooks.dedupeSongs songs)) songs.
Proof. apply dedupeSongs_facts. Qed.

Lemma foldl_dedupeStep_fresh (songMap : list (string * Song.t)) (songs : list Song.t) :
  NoDup (songMap.*1 ++ (Song.id <$> songs)) →
  foldl Hooks.dedupeStep songMap songs
  = songMap ++ ((λ s, (Song.id s, s)) <$> songs).
Proof.
  revert songMap. induction songs as [|x l IH]; intros songMap Hnd; simpl.
  - by rewrite app_nil_r.
  - assert (JsMap.get songMap (Song.id x) = None) as Hget.
    { apply JsMap_get_None. apply NoDup_app in Hnd as (_ & Hdisj & _).
      intros Hin. apply (Hdisj _ Hin). apply list_elem_of_here. }
    unfold Hooks.dedupeStep at 2. rewrite Hget, JsMap_set_absent by done.
    rewrite IH.
    + by rewrite <- app_assoc.
    + rewrite fmap_app, <- app_assoc. exact Hnd.
Qed.

Lemma dedupeSongs_fixed_aux (songs : list Song.t) :
  NoDup (Song.id <$> songs) → Hooks.dedupeSongs songs = songs.
Proof.
  intros Hnd. unfold Hooks.dedupeSongs, JsMap.values.
  rewrite foldl_dedupeStep_fresh by done. simpl.
  rewrite <- list_fmap_compose. apply list_fmap_id.
Qed.

(** X15. On songs whose ids are pairwise different the deduplication changes
    nothing, not even the order. *)
Theorem dedupeSongs_fixed (songs : list Song.t) :
  NoDup (Song.id <$> songs) → Hooks.dedupeSongs songs = songs.
Proof. apply dedupeSongs_fixed_aux. Qed.

Lemma dedupeSongs_fixed_witness : Hooks.dedupeSongs [songX; songY] = [songX; songY].
Proof.
  apply (dedupeSongs_fixed [songX; songY]).
  apply NoDup_cons. split; [|apply NoDup_singleton].
  intros Hin%list_elem_of_singleton. discriminate Hin.
Defined.

Lemma NoDup_ids_values (m : gmap string Song.t) :
  map_Forall (λ key song, Song.id song = key) m →
  NoDup (Song.id <$> values m).
Proof.
  intros Hkeyed. unfold values.
  assert (Song.id <$> (entries m).*2 = (entries m).*1) as ->.
  { assert (Forall (λ e, Song.id e.2 = e.1) (entries m)) as Hall.
    { apply Forall_forall. intros [k s] Hin. unfold entries in Hin.
      rewrite merge_sort_Permutation in Hin.
      apply elem_of_map_to_list in Hin. by apply (Hkeyed k s). }
    induction Hall as [|e l He _ IH]; [done|].
    rewrite !fmap_cons. by rewrite He, IH. }
  unfold entries. rewrite merge_sort_Permutation. apply NoDup_fst_map_to_list.
Qed.

(** X16. In every reachable state the songs the actor returns from
    [exportData] and from [getAllSongs] already have pairwise different
    ids, so the hooks' deduplication returns them unchanged. *)
Theorem dedupeSongs_of_actor (trace : list (Z * Call)) :
  Hooks.dedupeSongs (Snapshot.songs (exportData (run trace)))
  = Snapshot.songs (exportData (run trace)) ∧
  Hooks.dedupeSongs (getAllSongs (run trace)) = getAllSongs (run trace).
Proof.
  destruct (run_wellKeyed trace) as [Hsongs _].
  pose proof (NoDup_ids_values _ Hsongs) as Hnd. split.
  - by apply dedupeSongs_fixed_aux.
  - apply dedupeSongs_fixed_aux. unfold getAllSongs.
    by rewrite sortByTitle_Permutation.
Qed.

(** ** Importing through the hook *)

Lemma NoDup_fmap_eq {A B : Type} (f : A → B) (l : list A) (x y : A) :
  NoDup (f <$> l) → x ∈ l → y ∈ l → f x = f y → x = y.
Proof.
  induction l as [|a l IH]; [by intros _ ?%elem_of_nil|].
  rewrite fmap_cons, NoDup_cons.
  intros [Hnotin Hnd] [->|Hx]%elem_of_cons [->|Hy]%elem_of_cons Hf; [done| | |by apply IH].
  - exfalso. apply Hnotin. rewrite Hf. by apply list_elem_of_fmap_2.
  - exfalso. apply Hnotin. rewrite <- Hf. by apply list_elem_of_fmap_2.
Qed.

(** X17. After an import through [useImportData] the song stored under an id
    is one of the payload's songs with that id, and none of the payload's
    songs with that id was updated later; an id that no payload song
    carries is not stored. *)
Theorem importMutation_latest (st : State) (data : Snapshot.t) (id : string) :
  match songs (Hooks.importMutation st data) !! id with
  | Some song =>
      song ∈ Snapshot.songs data ∧ Song.id song = id ∧
      Forall (λ other, Song.id other = id →
                       (Song.updatedAt other ≤ Song.updatedAt song)%Z)
        (Snapshot.songs data)
  | None => Forall (λ other, Song.id other ≠ id) (Snapshot.songs data)
  end.
Proof.
  unfold Hooks.importMutation. rewrite importData_songs. simpl.
  rewrite (foldl_insert_last_empty Song.id (λ s, s)).
  destruct (dedupeSongs_facts (Snapshot.songs data)) as (Hnd & Hin & Hmax).
  destruct (last _) as [song|] eqn:Hlast; simpl.
  - apply last_filter_Some in Hlast as [Hid Hsong]. split_and!.
    + by eapply Forall_forall in Hin.
    + done.
    + apply Forall_forall. intros other Hother Hoid.
      eapply Forall_forall in Hmax; [|exact Hother].
      apply Exists_exists in Hmax as (best & Hbest & Hbid & Hle).
      assert (best = song) as ->; [|done].
      eapply (NoDup_fmap_eq Song.id); eauto. congruence.
  - apply last_None in Hlast. apply Forall_forall. intros other Hother Hoid.
    eapply Forall_forall in Hmax; [|exact Hother].
    apply Exists_exists in Hmax as (best & Hbest & Hbid & _).
    assert (best ∈ filter (λ s, Song.id s = id) (Hooks.dedupeSongs (Snapshot.songs data)))
      as Hf by (apply list_elem_of_filter; split; [congruence|done]).
    rewrite Hlast in Hf. by apply elem_of_nil in Hf.
Qed.

(** ** The set list mutations of the hooks *)

Lemma findSetList_lookup (st : State) (setListId : string) :
  wellKeyed st → Hooks.findSetList st setListId = setLists st !! setListId.
Proof.
  intros [_ Hkeyed]. unfold Hooks.findSetList, exportData. simpl.
  destruct (list_find _ _) as [[i sl]|] eqn:Hfind; simpl.
  - apply list_find_Some in Hfind as (Hi & Hid & _).
    apply list_elem_of_lookup_2, elem_of_values in Hi as [key Hkey].
    pose proof (Hkeyed key sl Hkey) as Hk. simpl in Hk. congruence.
  - apply list_find_None in Hfind.
    destruct (setLists st !! setListId) as [sl|] eqn:Hsl; [|done].
    eapply Forall_forall in Hfind.
    + exfalso. apply Hfind. by apply (Hkeyed setListId sl).
    + apply elem_of_values. by exists setListId.
Qed.

Lemma updateSetList_Ok now st id name songIds old :
  setLists st !! id = Some old →
  updateSetList now st id name songIds
  = Ok (withSetLists st
          (<[id := SetList.mk id name songIds (SetList.createdAt old) now]>
             (setLists st))).
Proof. intros Hold. unfold updateSetList. by rewrite Hold. Qed.

Lemma wellKeyed_withSetLists st id setList :
  wellKeyed st → SetList.id setList = id →
  wellKeyed (withSetLists st (<[id := setList]> (setLists st))).
Proof.
  intros [Hsongs Hlists] Hid. split; [done|]. simpl.
  by apply map_Forall_insert_2.
Qed.

Lemma indexOf_Some (l : list string) (x : string) (i : nat) :
  Hooks.indexOf l x = Some i ↔ l !! i = Some x ∧ ∀ j, j < i → l !! j ≠ Some x.
Proof.
  unfold Hooks.indexOf. split.
  - destruct (list_find _ l) as [[i' y]|] eqn:Hfind; [|done]. intros [= <-].
    apply list_find_Some in Hfind as (Hi & -> & Hbefore).
    split; [done|]. intros j Hj Hlj. by eapply (Hbefore j x).
  - intros [Hi Hbefore].
    assert (list_find (λ y, y = x) l = Some (i, x)) as ->; [|done].
    apply list_find_Some. split_and!; [done|done|].
    intros j y Hj Hlt ->. by eapply Hbefore.
Qed.

Lemma swap_adjacent {A : Type} (l : list A) (j : nat) (a b : A) :
  l !! j = Some b → l !! S j = Some a →
  l = take j l ++ b :: a :: drop (S (S j)) l ∧
  <[j := a]> (<[S j := b]> l) = take j l ++ a :: b :: drop (S (S j)) l.
Proof.
  revert l. induction j as [|j IH]; intros [|x [|y l]] Hb Ha; simplify_eq/=.
  - by rewrite drop_0.
  - destruct (IH (y :: l) Hb Ha) as [Hl Hswap]. split.
    + f_equal. exact Hl.
    + f_equal. exact Hswap.
Qed.

(** X18. Moving a song up with [useMoveSongInSetList] exchanges it with its
    predecessor: the stored id sequence is a permutation of the old one
    with the two songs exchanged and every other place unchanged; moving
    the same song down afterwards restores the original sequence. *)
Theorem moveSongMutation_up_down (now1 now2 : Z) (st : State)
    (setListId songId : string) (setList : SetList.t) (j : nat) :
  wellKeyed st →
  setLists st !! setListId = Some setList →
  Hooks.indexOf (SetList.songIds setList) songId = Some (S j) →
  ∃ st1 moved neighbour,
    Hooks.moveSongMutation now1 st setListId songId Hooks.up = Ok st1 ∧
    SetList.songIds <$> setLists st1 !! setListId = Some moved ∧
    moved ≡ₚ SetList.songIds setList ∧
    SetList.songIds setList !! j = Some neighbour ∧
    moved = take j (SetList.songIds setList) ++ songId :: neighbour
              :: drop (S (S j)) (SetList.songIds setList) ∧
    ∃ st2,
      Hooks.moveSongMutation now2 st1 setListId songId Hooks.down = Ok st2 ∧
      SetList.songIds <$> setLists st2 !! setListId = Some (SetList.songIds setList).
Proof.
  intros Hkeyed Hsl Hidx.
  pose proof Hidx as [Hcur Hfirst]%indexOf_Some.
  destruct (SetList.songIds setList !! j) as [neighbour|] eqn:Hnb.
  2:{ apply lookup_ge_None in Hnb. apply lookup_lt_Some in Hcur. lia. }
  destruct (swap_adjacent _ j songId neighbour Hnb Hcur) as [Hl Hswap].
  set (moved := take j (SetList.songIds setList) ++ songId :: neighbour
                  :: drop (S (S j)) (SetList.songIds setList)) in *.
  set (setList1 := SetList.mk setListId (SetList.name setList) moved
                     (SetList.createdAt setList) now1).
  set (st1 := withSetLists st (<[setListId := setList1]> (setLists st))).
  assert (Hooks.moveSongMutation now1 st setListId songId Hooks.up = Ok st1) as Hup.
  { unfold Hooks.moveSongMutation. rewrite findSetList_lookup, Hsl, Hidx by done.
    simpl. rewrite Nat.sub_0_r, Hcur, Hnb, Hswap.
    by rewrite (updateSetList_Ok _ _ _ _ _ setList). }
  assert (length moved = length (SetList.songIds setList)) as Hlen.
  { rewrite Hl at 1. unfold moved. by rewrite !length_app. }
  assert (length (take j (SetList.songIds setList)) = j) as Htake.
  { rewrite length_take. apply lookup_lt_Some in Hnb. lia. }
  assert (moved !! j = Some songId) as Hmj.
  { unfold moved. rewrite lookup_app_r by lia. by rewrite Htake, Nat.sub_diag. }
  assert (moved !! S j = Some neighbour) as HmSj.
  { unfold moved. rewrite lookup_app_r by lia.
    rewrite Htake. by replace (S j - j) with 1 by lia. }
  assert (Hooks.indexOf moved songId = Some j) as Hidx1.
  { apply indexOf_Some. split; [done|]. intros i Hi.
    unfold moved. rewrite lookup_app_l by lia.
    rewrite lookup_take_lt by lia. apply Hfirst. lia. }
  exists st1, moved, neighbour. split_and!; try done.
  - simpl. by rewrite lookup_insert_eq.
  - rewrite Hl at 1. unfold moved. apply Permutation_app_head, Permutation_swap.
  - assert (wellKeyed st1) as Hkeyed1 by (by apply wellKeyed_withSetLists).
    assert (setLists st1 !! setListId = Some setList1) as Hsl1
      by (simpl; by rewrite lookup_insert_eq).
    eexists. split.
    + unfold Hooks.moveSongMutation.
      rewrite findSetList_lookup, Hsl1 by done. simpl.
      rewrite Hidx1. simpl.
      rewrite (proj2 (Z.ltb_lt _ _)) by (apply lookup_lt_Some in HmSj; lia).
      replace (j + 1) with (S j) by lia. rewrite Hmj, HmSj.
      by rewrite (updateSetList_Ok _ _ _ _ _ setList1).
    + simpl. rewrite lookup_insert_eq. simpl. f_equal.
      destruct (swap_adjacent moved j neighbour songId Hmj HmSj) as [_ Hback].
      rewrite list_insert_insert_ne by lia. rewrite Hback.
      rewrite Hl at 1. unfold moved.
      rewrite take_app_length' by done. do 3 f_equal.
      rewrite (app_assoc _ [songId; neighbour] _ : _ ++ songId :: neighbour :: _ = _).
      apply drop_app_length'. rewrite length_app, Htake. simpl. lia.
Qed.

Lemma moveSongMutation_up_down_witness :
  ∃ st1 st2,
    Hooks.moveSongMutation 300 exampleStore "L" "s2" Hooks.up = Ok st1 ∧
    SetList.songIds <$> setLists st1 !! "L" = Some ["s2"; "s1"] ∧
    Hooks.moveSongMutation 400 st1 "L" "s2" Hooks.down = Ok st2 ∧
    SetList.songIds <$> setLists st2 !! "L" = Some ["s1"; "s2"].
Proof.
  destruct (moveSongMutation_up_down 300 400 exampleStore "L" "s2" listA 0)
    as (st1 & moved & neighbour & Hup & Hmoved & _ & Hnb & Heq & st2 & Hdown & Hback).
  - apply (run_wellKeyed [(0%Z, ImportData (Snapshot.mk [songX; songY] [listA]))]).
  - reflexivity.
  - reflexivity.
  - exists st1, st2. split_and!; [exact Hup| |exact Hdown|exact Hback].
    rewrite Hmoved, Heq. injection Hnb as <-. reflexivity.
Defined.




(** X20. Adding a song through [useAddSongToSetList] puts it into the stored
    id sequence without touching the other ids, and adding a song that is
    already there changes nothing: the hook never creates a duplicate. *)
Theorem addSongMutation_idempotent (now1 now2 : Z) (st : State)
    (setListId songId : string) (setList : SetList.t) :
  wellKeyed st →
  setLists st !! setListId = Some setList →
  ∃ st1 setList1,
    Hooks.addSongMutation now1 st setListId songId = Ok st1 ∧
    setLists st1 !! setListId = Some setList1 ∧
    songId ∈ SetList.songIds setList1 ∧
    filter (λ id, id ≠ songId) (SetList.songIds setList1)
    = filter (λ id, id ≠ songId) (SetList.songIds setList) ∧
    length (filter (λ id, id = songId) (SetList.songIds setList1))
    = max 1 (length (filter (λ id, id = songId) (SetList.songIds setList))) ∧
    Hooks.addSongMutation now2 st1 setListId songId = Ok st1.
Proof.
  intros Hkeyed Hsl. unfold Hooks.addSongMutation at 1.
  rewrite findSetList_lookup, Hsl by done.
  destruct (decide (songId ∈ SetList.songIds setList)) as [Hin|Hnotin].
  - rewrite bool_decide_eq_true_2 by done. simpl.
    exists st, setList. split_and!; try done.
    + assert (songId ∈ filter (λ id, id = songId) (SetList.songIds setList)) as Hf
        by (by apply list_elem_of_filter).
      destruct (filter _ _); [by apply elem_of_nil in Hf|]. simpl. lia.
    + unfold Hooks.addSongMutation. rewrite findSetList_lookup, Hsl by done.
      by rewrite bool_decide_eq_true_2.
  - rewrite bool_decide_eq_false_2 by done. simpl.
    rewrite (updateSetList_Ok _ _ _ _ _ setList) by done.
    eexists _, _. split_and!.
    + done.
    + simpl. by rewrite lookup_insert_eq.
    + simpl. apply elem_of_app. right. apply list_elem_of_here.
    + simpl. rewrite filter_app, filter_cons_False by (by intros ?).
      by rewrite filter_nil, app_nil_r.
    + simpl. rewrite filter_app, filter_cons_True by done. rewrite filter_nil.
      assert (filter (λ id, id = songId) (SetList.songIds setList) = []) as ->; [|done].
      apply elem_of_nil_inv. intros x [-> Hx]%list_elem_of_filter. done.
    + unfold Hooks.addSongMutation. rewrite findSetList_lookup.
      * simpl. rewrite lookup_insert_eq. simpl.
        rewrite bool_decide_eq_true_2; [done|].
        apply elem_of_app. right. apply list_elem_of_here.
      * by apply wellKeyed_withSetLists.
Qed.

Lemma addSongMutation_idempotent_witness :
  ∃ st1,
    Hooks.addSongMutation 300 exampleStore "L" "s3" = Ok st1 ∧
    SetList.songIds <$> setLists st1 !! "L" = Some ["s1"; "s2"; "s3"] ∧
    Hooks.addSongMutation 400 st1 "L" "s3" = Ok st1.
Proof.
  destruct (addSongMutation_idempotent 300 400 exampleStore "L" "s3" listA)
    as (st1 & setList1 & Hadd & Hl1 & _ & _ & _ & Hagain).
  - apply (run_wellKeyed [(0%Z, ImportData (Snapshot.mk [songX; songY] [listA]))]).
  - reflexivity.
  - exists st1. split_and!; [exact Hadd| |exact Hagain].
    assert (Ok st1 = Hooks.addSongMutation 300 exampleStore "L" "s3") as Heq by done.
    vm_compute in Heq. injection Heq as ->. reflexivity.
Defined.

(** ** Typing a position in the set list editor *)

(** X21. When [handlePositionCommit] sends a reordered sequence, the typed
    position lies between 1 and the length of the list, the new sequence
    is a permutation of the old one with the song at the typed position,
    and the other songs keep their relative order. *)
Theorem handlePositionCommit_reorder (songIds : list string) (songId : string)
    (newPosition : Z) (newSongIds : list string) :
  SetListsTab.handlePositionCommit songIds songId newPosition
  = SetListsTab.Reorder newSongIds →
  ∃ currentIndex,
    Hooks.indexOf songIds songId = Some currentIndex ∧
    (1 ≤ newPosition ≤ Z.of_nat (length songIds))%Z ∧
    Z.to_nat (newPosition - 1) ≠ currentIndex ∧
    newSongIds ≡ₚ songIds ∧
    newSongIds !! Z.to_nat (newPosition - 1) = Some songId ∧
    delete (Z.to_nat (newPosition - 1)) newSongIds = delete currentIndex songIds.
Proof.
  unfold SetListsTab.handlePositionCommit.
  destruct (Hooks.indexOf songIds songId) as [currentIndex|] eqn:Hidx; [|done].
  apply indexOf_Some in Hidx as [Hcur _].
  destruct (Z.ltb_spec (newPosition - 1) 0); [done|].
  destruct (Z.leb_spec (Z.of_nat (length songIds)) (newPosition - 1)); [done|].
  simpl. destruct (Z.eqb_spec (newPosition - 1) (Z.of_nat currentIndex)); [done|].
  intros [= <-]. exists currentIndex.
  set (t := Z.to_nat (newPosition - 1)).
  assert (length (delete currentIndex songIds) = length songIds - 1) as Hlen.
  { rewrite length_delete; [done|]. by exists songId. }
  assert (length (take t (delete currentIndex songIds)) = t) as Htake.
  { rewrite length_take. lia. }
  split_and!; try done; try lia.
  - rewrite <- Permutation_middle, take_drop.
    symmetry. by apply delete_Permutation.
  - rewrite lookup_app_r by lia. by rewrite Htake, Nat.sub_diag.
  - rewrite <- Htake at 1. by rewrite delete_middle, take_drop.
Qed.

Lemma handlePositionCommit_reorder_witness :
  ∃ currentIndex,
    Hooks.indexOf ["a"; "b"; "c"] "c" = Some currentIndex ∧
    ["c"; "a"; "b"] ≡ₚ ["a"; "b"; "c"].
Proof.
  destruct (handlePositionCommit_reorder ["a"; "b"; "c"] "c" 1 ["c"; "a"; "b"] eq_refl)
    as (currentIndex & Hidx & _ & _ & Hperm & _).
  exists currentIndex. split; [exact Hidx|exact Hperm].
Defined.

(** ** File names of the single-item exports *)

Lemma sanitize_unit (c : N) :
  Hooks.isFileNameUnit (if Hooks.isFileNameUnit c then c else 95%N) = true.
Proof. by destruct (Hooks.isFileNameUnit c) eqn:Hc. Qed.

Lemma fmap_sanitize_fixed (l : list N) :
  Forall (λ c, Hooks.isFileNameUnit c = true) l →
  (λ c, if Hooks.isFileNameUnit c then c else 95%N) <$> l = l.
Proof.
  induction 1 as [|c l Hc _ IH]; [done|].
  rewrite fmap_cons, IH. by rewrite Hc.
Qed.

(** X22. [sanitizeFileName] returns at most 50 code units, all of them
    letters, digits, underscores or hyphens; it keeps every such unit of
    the first 50 in its place, and sanitizing twice is sanitizing once. *)
Theorem sanitizeFileName_spec (name : list N) :
  length (Hooks.sanitizeFileName name) = min 50 (length name) ∧
  Forall (λ c, Hooks.isFileNameUnit c = true) (Hooks.sanitizeFileName name) ∧
  Hooks.sanitizeFileName (Hooks.sanitizeFileName name) = Hooks.sanitizeFileName name ∧
  ∀ i c, name !! i = Some c → Hooks.isFileNameUnit c = true → i < 50 →
         Hooks.sanitizeFileName name !! i = Some c.
Proof.
  assert (Forall (λ c, Hooks.isFileNameUnit c = true) (Hooks.sanitizeFileName name))
    as Hall.
  { unfold Hooks.sanitizeFileName. apply Forall_take, Forall_fmap, Forall_forall.
    intros c _. apply sanitize_unit. }
  split_and!.
  - unfold Hooks.sanitizeFileName. by rewrite length_take, length_fmap.
  - done.
  - unfold Hooks.sanitizeFileName at 1. rewrite fmap_sanitize_fixed by done.
    unfold Hooks.sanitizeFileName. rewrite take_take. f_equal.
  - intros i c Hi Hc Hlt. unfold Hooks.sanitizeFileName.
    rewrite lookup_take_lt by done. rewrite list_lookup_fmap, Hi. simpl.
    by rewrite Hc.
Qed.

(** ** Normalized color ranges are left alone *)

Lemma rebuildColorRanges_inv (text : string) (highlights : list Editor.ColorHighlight) :
  Forall (inBounds text) (Editor.rebuildColorRanges text highlights) ∧
  StronglySorted before (Editor.rebuildColorRanges text highlights).
Proof.
  unfold Editor.rebuildColorRanges. case_bool_decide.
  - split; constructor.
  - destruct (scan_inv text
                (List.filter (Editor.isValid text) (Editor.sortByStart highlights))
                ([], 0%Z) (filter_isValid text _) (scanInv_init text)) as (? & ? & _).
    done.
Qed.

Lemma sortByStart_fixed (text : string) (l : list Editor.ColorHighlight) :
  Forall (inBounds text) l → StronglySorted before l → Editor.sortByStart l = l.
Proof.
  intros Hb Hs. induction Hs as [|h l Hs IH Hh]; [done|].
  apply Forall_cons in Hb as [Hbh Hb].
  unfold Editor.sortByStart in *. simpl. rewrite IH by done.
  destruct l as [|x r]; [done|]. simpl.
  apply Forall_cons in Hh as [Hhx _]. destruct Hbh as (_ & Hlt & _).
  unfold before, Editor.Number in *.
  destruct (Z.leb_spec (Editor.start h - Editor.start x) 0); [done|lia].
Qed.

Lemma filter_isValid_fixed (text : string) (l : list Editor.ColorHighlight) :
  Forall (inBounds text) l → List.filter (Editor.isValid text) l = l.
Proof.
  induction 1 as [|h l Hh _ IH]; [done|]. simpl.
  assert (Editor.isValid text h = true) as ->.
  { unfold Editor.isValid, Editor.Number. destruct Hh as (? & ? & ?). lia. }
  by rewrite IH.
Qed.

Lemma scan_accepts_all (text : string) (l acc : list Editor.ColorHighlight)
    (lastEnd : Z) :
  Forall (inBounds text) l → StronglySorted before l →
  Forall (λ h, (lastEnd ≤ Editor.start h)%Z) l →
  (foldl Editor.scanStep (acc, lastEnd) l).1 = acc ++ l.
Proof.
  intros Hb Hs. revert acc lastEnd.
  induction Hs as [|h l Hs IH Hh]; intros acc lastEnd Hle; simpl.
  - by rewrite app_nil_r.
  - apply Forall_cons in Hb as [Hbh Hb]. apply Forall_cons in Hle as [Hleh _].
    unfold Editor.Number.
    rewrite (proj2 (Z.leb_le _ _)) by done.
    rewrite IH; [by rewrite <- app_assoc|done|].
    eapply Forall_impl; [exact Hh|]. by intros x Hx.
Qed.

Lemma rebuildColorRanges_fixed_aux (text : string) (l : list Editor.ColorHighlight) :
  Forall (inBounds text) l → StronglySorted before l →
  Editor.rebuildColorRanges text l = l.
Proof.
  intros Hb Hs. unfold Editor.rebuildColorRanges.
  case_bool_decide as Hlen; [by destruct l|].
  rewrite (sortByStart_fixed text), (filter_isValid_fixed text) by done.
  rewrite (scan_accepts_all text); [done..|].
  eapply Forall_impl; [exact Hb|]. by intros h (? & _).
Qed.

(** Running [rebuildColorRanges] on its own result changes nothing: the
    ranges that are saved are a fixed point of the normalization. *)
Theorem rebuildColorRanges_idempotent (text : string)
    (highlights : list Editor.ColorHighlight) :
  Editor.rebuildColorRanges text (Editor.rebuildColorRanges text highlights)
  = Editor.rebuildColorRanges text highlights.
Proof.
  destruct (rebuildColorRanges_inv text highlights) as [Hb Hs].
  by apply rebuildColorRanges_fixed_aux.
Qed.

(** X23. Ranges that are already within the text, in order and not
    overlapping are all kept, in their order. *)
Theorem rebuildColorRanges_fixed (text : string) (l : list Editor.ColorHighlight) :
  Forall (inBounds text) l → StronglySorted before l →
  Editor.rebuildColorRanges text l = l.
Proof. apply rebuildColorRanges_fixed_aux. Qed.

Lemma rebuildColorRanges_fixed_witness :
  Editor.rebuildColorRanges "hello world"
    [Editor.Build_ColorHighlight 0 4 "green"; Editor.Build_ColorHighlight 4 11 "red"]
  = [Editor.Build_ColorHighlight 0 4 "green"; Editor.Build_ColorHighlight 4 11 "red"].
Proof.
  apply (rebuildColorRanges_fixed "hello world").
  - repeat constructor; simpl; lia.
  - repeat constructor; unfold before; simpl; lia.
Defined.

(** ** Rendering colored lyrics *)

Lemma string_append_nil_r s : s +:+ "" = s.
Proof. induction s as [|a s IH]; [done|]. by rewrite string_append_cons, IH. Qed.

Lemma string_append_assoc s1 s2 s3 : (s1 +:+ s2) +:+ s3 = s1 +:+ (s2 +:+ s3).
Proof.
  induction s1 as [|a s1 IH]; [done|]. by rewrite !string_append_cons, IH.
Qed.

Lemma substring_0_add (a m : nat) (s : string) :
  String.substring 0 (a + m) s = String.substring 0 a s +:+ String.substring a m s.
Proof.
  revert s. induction a as [|a IH]; intros s.
  - simpl. by destruct s.
  - destruct s as [|c s]; simpl; [done|].
    by rewrite IH, string_append_cons.
Qed.

Lemma substring_full (s : string) : String.substring 0 (String.length s) s = s.
Proof. induction s as [|c s IH]; simpl; [done|]. by rewrite IH. Qed.

Lemma substring_in_range (text : string) (a b : Z) :
  (0 ≤ a ≤ b)%Z → (b ≤ Z.of_nat (String.length text))%Z →
  PlayTab.substring text a b
  = String.substring (Z.to_nat a) (Z.to_nat b - Z.to_nat a) text.
Proof.
  intros Hab Hb. unfold PlayTab.substring, PlayTab.clamp.
  rewrite !Z.max_l, !Z.min_l by lia.
  rewrite Nat.min_l, Nat.max_r by lia. done.
Qed.

Lemma substring_extend (text : string) (a b : Z) :
  (0 ≤ a ≤ b)%Z → (b ≤ Z.of_nat (String.length text))%Z →
  String.substring 0 (Z.to_nat a) text +:+ PlayTab.substring text a b
  = String.substring 0 (Z.to_nat b) text.
Proof.
  intros Hab Hb. rewrite substring_in_range by done.
  rewrite <- substring_0_add. f_equal. lia.
Qed.

Lemma renderedText_app l1 l2 :
  renderedText (l1 ++ l2) = renderedText l1 +:+ renderedText l2.
Proof.
  induction l1 as [|x l1 IH]; simpl; [done|].
  by rewrite IH, string_append_assoc.
Qed.

Lemma coloredPieces_app l1 l2 :
  coloredPieces (l1 ++ l2) = coloredPieces l1 ++ coloredPieces l2.
Proof. apply omap_app. Qed.

Lemma colorScan (text : string) (l : list Editor.ColorHighlight) :
  ∀ (g : nat → nat) (elements : list PlayTab.Span) (lastIndex : Z),
    Forall (inBounds text) l → StronglySorted before l →
    Forall (λ r, (lastIndex ≤ Editor.start r)%Z) l →
    (0 ≤ lastIndex ≤ Z.of_nat (String.length text))%Z →
    renderedText elements = String.substring 0 (Z.to_nat lastIndex) text →
    ∃ elements' lastIndex',
      foldl (PlayTab.colorStep text) (elements, lastIndex)
        (imap (λ idx r, (g idx, r)) l) = (elements', lastIndex') ∧
      renderedText elements' = String.substring 0 (Z.to_nat lastIndex') text ∧
      (0 ≤ lastIndex' ≤ Z.of_nat (String.length text))%Z ∧
      coloredPieces elements'
      = coloredPieces elements
        ++ ((λ r, (Editor.color r,
                   PlayTab.substring text (Editor.start r) (Editor.end_ r))) <$> l).
Proof.
  induction l as [|r l IH]; intros g elements lastIndex Hb Hs Hle Hrange Htext.
  - exists elements, lastIndex. simpl. by rewrite app_nil_r.
  - apply Forall_cons in Hb as [(Hr0 & Hrlt & Hrlen) Hb].
    apply StronglySorted_cons in Hs as [Hrl Hs].
    apply Forall_cons in Hle as [Hler _].
    rewrite imap_cons. cbn [foldl].
    rewrite (imap_ext _ (λ idx r', (g (S idx), r'))) by done.
    unfold PlayTab.colorStep at 2. unfold Editor.Number.
    set (elements1 := if (lastIndex <? Editor.start r)%Z then _ else _).
    assert (renderedText elements1
            = String.substring 0 (Z.to_nat (Editor.start r)) text ∧
            coloredPieces elements1 = coloredPieces elements) as [Htext1 Hcol1].
    { unfold elements1. destruct (Z.ltb_spec lastIndex (Editor.start r)) as [Hlt|Hge].
      - split.
        + rewrite renderedText_app, Htext. simpl. rewrite string_append_nil_r.
          apply substring_extend; lia.
        + rewrite coloredPieces_app. simpl. apply app_nil_r.
      - split; [|done]. rewrite Htext. do 2 f_equal. lia. }
    destruct (IH (λ idx, g (S idx))
                (elements1 ++ [PlayTab.Build_Span (PlayTab.KeyColor (g 0))
                                 (Some (Editor.color r))
                                 (PlayTab.substring text (Editor.start r)
                                    (Editor.end_ r))])
                (Editor.end_ r))
      as (elements' & lastIndex' & Hfold & Htext' & Hrange' & Hcol');
      [done|done|exact Hrl| | |].
    + lia.
    + rewrite renderedText_app, Htext1. simpl. rewrite string_append_nil_r.
      apply substring_extend; lia.
    + exists elements', lastIndex'. split_and!; try done; try lia.
      rewrite Hcol', coloredPieces_app, Hcol1, fmap_cons. simpl.
      by rewrite <- app_assoc.
Qed.

Lemma applyTextColorChanges_normalized (text : string)
    (colorRanges : list Editor.ColorHighlight) :
  Forall (inBounds text) colorRanges → StronglySorted before colorRanges →
  renderedText (PlayTab.applyTextColorChanges text colorRanges) = text ∧
  coloredPieces (PlayTab.applyTextColorChanges text colorRanges)
  = (λ r, (Editor.color r,
           PlayTab.substring text (Editor.start r) (Editor.end_ r))) <$> colorRanges.
Proof.
  intros Hb Hs. unfold PlayTab.applyTextColorChanges.
  case_bool_decide as Hlen.
  - destruct colorRanges; [|done]. simpl. by rewrite string_append_nil_r.
  - rewrite (sortByStart_fixed text) by done.
    assert (Forall (λ r, (0 ≤ Editor.start r)%Z) colorRanges) as Hstart.
    { eapply Forall_impl; [exact Hb|]. by intros r (? & _). }
    assert (0 ≤ 0 ≤ Z.of_nat (String.length text))%Z as Hzero by lia.
    assert (renderedText [] = String.substring 0 (Z.to_nat 0) text) as Hempty
      by (by destruct text).
    destruct (colorScan text colorRanges (λ idx, idx) [] 0%Z Hb Hs Hstart Hzero Hempty)
      as (elements & lastIndex & Hfold & Htext & Hrange & Hcol).
    rewrite Hfold.
    destruct (Z.ltb_spec lastIndex (Z.of_nat (String.length text))) as [Hlt|Hge].
    + rewrite renderedText_app, coloredPieces_app, Htext, Hcol. simpl.
      rewrite string_append_nil_r, app_nil_r. split; [|done].
      rewrite substring_extend by lia.
      rewrite Nat2Z.id. apply substring_full.
    + split; [|done]. rewrite Htext.
      replace (Z.to_nat lastIndex) with (String.length text) by lia.
      apply substring_full.
Qed.

(** X24. For color ranges that lie within the text, in order and without
    overlap, the spans of [applyTextColorChanges] show the text exactly
    once, and the colored spans are the ranges' own pieces of the text, in
    order, each in its range's color. *)
Theorem applyTextColorChanges_renders (text : string)
    (colorRanges : list Editor.ColorHighlight) :
  Forall (inBounds text) colorRanges → StronglySorted before colorRanges →
  renderedText (PlayTab.applyTextColorChanges text colorRanges) = text ∧
  coloredPieces (PlayTab.applyTextColorChanges text colorRanges)
  = (λ r, (Editor.color r,
           PlayTab.substring text (Editor.start r) (Editor.end_ r))) <$> colorRanges.
Proof. apply applyTextColorChanges_normalized. Qed.

Lemma applyTextColorChanges_renders_witness :
  renderedText
    (PlayTab.applyTextColorChanges "hello world"
       [Editor.Build_ColorHighlight 0 4 "green"; Editor.Build_ColorHighlight 6 11 "red"])
  = "hello world".
Proof.
  apply (applyTextColorChanges_renders "hello world").
  - repeat constructor; simpl; lia.
  - repeat constructor; unfold before; simpl; lia.
Defined.

(** X25. Whatever color ranges the editor holds, the ranges it saves after
    [rebuildColorRanges] are rendered over the same text without losing
    or repeating any of it. *)
Theorem rebuilt_ranges_render_text (text : string)
    (highlights : list Editor.ColorHighlight) :
  renderedText
    (PlayTab.applyTextColorChanges text (Editor.rebuildColorRanges text highlights))
  = text.
Proof.
  destruct (rebuildColorRanges_inv text highlights) as [Hb Hs].
  by apply applyTextColorChanges_normalized.
Qed.

(** Overlapping ranges, which the normalization would have dropped, make
    the rendering repeat text. *)
Example overlapping_ranges_repeat_text :
  renderedText
    (PlayTab.applyTextColorChanges "abcdef"
       [Editor.Build_ColorHighlight 0 4 "green"; Editor.Build_ColorHighlight 2 5 "red"])
  = "abcdcdef".
Proof. reflexivity. Qed.

(** ** Saving as a new song, and titles shared by two songs *)

Section saveAsNew.
Variables (now : Z) (st : State).
Variables (title artist lyrics : string) (scrollSpeed tempo : nat).
Variables (backgroundColor textColor : string) (textSize : nat).
Variables (isBold : bool) (linesPerScroll : Z).
Variables (colorRanges : list ColorRange.t) (image : option ExternalBlob).

Local Abbreviation saveNew :=
  (saveSong now st None title artist lyrics scrollSpeed tempo backgroundColor
     textColor textSize isBold linesPerScroll colorRanges false image).

(** X26. Saving without an id and without the replace flag under a title that
    is already indexed stores the song under the generated id and repoints
    the index entry to it; the song that owned the entry stays stored
    unchanged, so two songs now share the title, which is reported as
    taken. *)
Theorem saveSong_as_new_keeps_both (existing : string) :
  titleToId st !! normalizeTitle title = Some existing →
  existing ≠ generateId now →
  SaveSongResponse.songId saveNew.2 = Some (generateId now) ∧
  songs saveNew.1 !! generateId now
  = Some (Song.mk (generateId now) title artist lyrics scrollSpeed tempo
            backgroundColor textColor textSize isBold now now linesPerScroll
            colorRanges image) ∧
  songs saveNew.1 !! existing = songs st !! existing ∧
  titleToId saveNew.1 !! normalizeTitle title = Some (generateId now) ∧
  isTitleUnique saveNew.1 title = false.
Proof.
  intros Hidx Hne. unfold saveSong. rewrite Hidx.
  cbn [fst snd withSong songs titleToId SaveSongResponse.songId]. split_and!.
  - done.
  - apply lookup_insert_eq.
  - by apply lookup_insert_ne.
  - apply lookup_insert_eq.
  - unfold isTitleUnique. cbn [fst withSong titleToId]. rewrite lookup_insert_eq.
    by rewrite bool_decide_eq_true_2 by eauto.
Qed.

End saveAsNew.

Lemma saveSong_as_new_keeps_both_witness :
  Song.title <$> songs (saveSong 200 exampleStore None "x " "Cy" "fa so" 2 100
                          "#111111" "#eeeeee" 18 true 2 [] false None).1 !! "s1"
  = Some "X" ∧
  titleToId (saveSong 200 exampleStore None "x " "Cy" "fa so" 2 100
               "#111111" "#eeeeee" 18 true 2 [] false None).1 !! "x"
  = Some "2000a".
Proof.
  destruct (saveSong_as_new_keeps_both 200 exampleStore "x " "Cy" "fa so" 2 100
              "#111111" "#eeeeee" 18 true 2 [] None "s1")
    as (_ & _ & Hold & Hidx & _); [reflexivity|discriminate|].
  split; [by rewrite Hold|exact Hidx].
Defined.

(** X27. When two stored songs share a normalized title and the index entry
    points at one of them, deleting that one removes the entry: the title
    is then reported as unique although the other song, which carries it,
    is still stored. *)
Theorem deleteSong_frees_shared_title (st : State) (kept deleted : string)
    (keptSong deletedSong : Song.t) :
  kept ≠ deleted →
  songs st !! kept = Some keptSong →
  songs st !! deleted = Some deletedSong →
  normalizeTitle (Song.title keptSong) = normalizeTitle (Song.title deletedSong) →
  titleToId st !! normalizeTitle (Song.title deletedSong) = Some deleted →
  ∃ st', deleteSong st deleted = Ok st' ∧
    songs st' !! kept = Some keptSong ∧
    isTitleUnique st' (Song.title keptSong) = true.
Proof.
  intros Hne Hkept Hdel Htitle Hidx.
  destruct (deleteSong st deleted) as [st'|msg] eqn:Hcall.
  2:{ unfold deleteSong in Hcall. by rewrite Hdel in Hcall. }
  exists st'. split; [done|].
  pose proof Hcall as (Hs & _)%deleteSong_Ok.
  split; [by rewrite Hs, lookup_delete_ne|].
  unfold isTitleUnique. rewrite Htitle.
  unfold deleteSong in Hcall. rewrite Hdel, Hidx in Hcall.
  rewrite bool_decide_eq_true_2 in Hcall by done. injection Hcall as <-.
  match goal with |- context [foldl ?f ?s ?l] =>
    destruct (foldl_removeSong_frame l s deleted) as (_ & _ & Ht)
  end.
  rewrite Ht. cbn [titleToId]. rewrite lookup_delete_eq.
  by rewrite bool_decide_eq_false_2 by (by intros [? ?]).
Qed.

Lemma deleteSong_frees_shared_title_witness :
  ∃ st',
    deleteSong
      (importData emptyState
         (Snapshot.mk [songX; Song.mk "s2" " x" "Bob" "do" 1 90 "#000000" "#ffffff"
                                 16 true 110 110 1 [] None] [])) "s2" = Ok st' ∧
    Song.title <$> songs st' !! "s1" = Some "X" ∧
    isTitleUnique st' "X" = true.
Proof.
  destruct (deleteSong_frees_shared_title
              (importData emptyState
                 (Snapshot.mk [songX; Song.mk "s2" " x" "Bob" "do" 1 90 "#000000"
                                         "#ffffff" 16 true 110 110 1 [] None] []))
              "s1" "s2" songX
              (Song.mk "s2" " x" "Bob" "do" 1 90 "#000000" "#ffffff" 16 true
                 110 110 1 [] None))
    as (st' & Hdel & Hkept & Huniq); try reflexivity; [discriminate|].
  exists st'. split_and!; [exact Hdel|by rewrite Hkept|exact Huniq].
Defined.

(** ** Songs of a set list, as the hook returns them *)


(** ** The order of an export *)

Lemma entries_sorted {V : Type} (m : gmap string V) :
  StronglySorted String.le (entries m).*1.
Proof.
  unfold entries.
  assert (Transitive (@keyLe V)) as Htrans.
  { intros a b c. unfold keyLe. apply transitivity. }
  assert (Total (@keyLe V)) as Htotal.
  { intros a b. unfold keyLe. apply total, _. }
  pose proof (StronglySorted_merge_sort (@keyLe V) (map_to_list m)) as Hs.
  induction Hs as [|e l _ IH He]; [constructor|].
  rewrite fmap_cons. constructor; [done|].
  apply Forall_fmap. eapply Forall_impl; [exact He|]. done.
Qed.

Lemma ids_values_keyed {V : Type} (key : V → string) (m : gmap string V) :
  map_Forall (λ i v, key v = i) m → key <$> values m = (entries m).*1.
Proof.
  intros Hkeyed. unfold values.
  assert (Forall (λ e, key e.2 = e.1) (entries m)) as Hall.
  { apply Forall_forall. intros [k s] Hin. unfold entries in Hin.
    rewrite merge_sort_Permutation in Hin.
    apply elem_of_map_to_list in Hin. by apply (Hkeyed k s). }
  induction Hall as [|e l He _ IH]; [done|].
  rewrite !fmap_cons. by rewrite He, IH.
Qed.

(** X29. In every reachable state [exportData] lists every stored song and
    every stored set list exactly once, in ascending order of id. *)
Theorem exportData_sorted (trace : list (Z * Call)) :
  StronglySorted String.le (Song.id <$> Snapshot.songs (exportData (run trace))) ∧
  StronglySorted String.le (SetList.id <$> Snapshot.setLists (exportData (run trace))) ∧
  length (Snapshot.songs (exportData (run trace))) = size (songs (run trace)) ∧
  length (Snapshot.setLists (exportData (run trace))) = size (setLists (run trace)) ∧
  (∀ song, song ∈ Snapshot.songs (exportData (run trace))
           ↔ songs (run trace) !! Song.id song = Some song) ∧
  (∀ setList, setList ∈ Snapshot.setLists (exportData (run trace))
              ↔ setLists (run trace) !! SetList.id setList = Some setList).
Proof.
  destruct (run_wellKeyed trace) as [Hsongs Hlists]. simpl. split_and!.
  - rewrite (ids_values_keyed Song.id) by done. apply entries_sorted.
  - rewrite (ids_values_keyed SetList.id) by done. apply entries_sorted.
  - apply length_values.
  - apply length_values.
  - intros song. rewrite elem_of_values. split; [|by eauto].
    intros [key Hkey]. pose proof (Hsongs key song Hkey) as Hid. simpl in Hid.
    by rewrite Hid.
  - intros setList. rewrite elem_of_values. split; [|by eauto].
    intros [key Hkey]. pose proof (Hlists key setList Hkey) as Hid. simpl in Hid.
    by rewrite Hid.
Qed.

(** ** Importing set list files *)

Lemma generateId_inj_aux (now1 now2 : Z) :
  generateId now1 = generateId now2 → now1 = now2.
Proof.
  rewrite !generateId_unfold. intros Heq.
  by apply ofInt_inj, (string_append_inv_tail _ _ "0a").
Qed.

Lemma importSetLists_fold (calls : list (Z * Hooks.SetListFileData)) (st : State)
    (created : list (string * string)) :
  setLists (foldl Hooks.importSetListsStep (st, created) calls).1
  = foldl (λ acc call,
             <[generateId call.1 :=
                 SetList.mk (generateId call.1) (Hooks.fileName call.2)
                   (Hooks.fileSongIds call.2) call.1 call.1]> acc)
      (setLists st) calls ∧
  (foldl Hooks.importSetListsStep (st, created) calls).2
  = created ++ ((λ call, (generateId call.1, Hooks.fileName call.2)) <$> calls).
Proof.
  revert st created. induction calls as [|[now file] calls IH]; intros st created.
  - simpl. by rewrite app_nil_r.
  - cbn [foldl]. unfold Hooks.importSetListsStep at 2 4. unfold createSetList.
    destruct (IH (withSetLists st
                    (<[generateId now :=
                         SetList.mk (generateId now) (Hooks.fileName file)
                           (Hooks.fileSongIds file) now now]> (setLists st)))
                 (created ++ [(generateId now, Hooks.fileName file)]))
      as [IH1 IH2].
    split; [exact IH1|]. rewrite IH2, fmap_cons. by rewrite <- app_assoc.
Qed.

(** X30. Importing set list files whose [createSetList] calls are executed at
    pairwise different times, none of which generates an id already in
    use, stores one new set list per file, under pairwise different ids,
    and keeps every set list that was stored before. *)
Theorem importSetLists_distinct_ticks (st : State)
    (calls : list (Z * Hooks.SetListFileData)) :
  NoDup calls.*1 →
  Forall (λ call, setLists st !! generateId call.1 = None) calls →
  size (setLists (Hooks.importSetListsMutation st calls).1)
  = size (setLists st) + length calls ∧
  NoDup (Hooks.importSetListsMutation st calls).2.*1 ∧
  Forall (λ call,
            setLists (Hooks.importSetListsMutation st calls).1 !! generateId call.1
            = Some (SetList.mk (generateId call.1) (Hooks.fileName call.2)
                      (Hooks.fileSongIds call.2) call.1 call.1)) calls ∧
  map_Forall (λ id setList,
                setLists (Hooks.importSetListsMutation st calls).1 !! id
                = Some setList) (setLists st).
Proof.
  intros Hnd Hfresh. unfold Hooks.importSetListsMutation.
  destruct (importSetLists_fold calls st []) as [-> ->]. simpl.
  set (key := λ c : Z * Hooks.SetListFileData, generateId c.1).
  set (val := λ c : Z * Hooks.SetListFileData,
                SetList.mk (generateId c.1) (Hooks.fileName c.2)
                  (Hooks.fileSongIds c.2) c.1 c.1).
  assert (∀ (l : list (Z * Hooks.SetListFileData)) k,
            foldl (λ acc c, <[key c := val c]> acc) (setLists st) l !! k
            = match last (filter (λ c, key c = k) l) with
              | Some c => Some (val c)
              | None => setLists st !! k
              end) as Hlookup by (intros l k; apply foldl_insert_last).
  split_and!.
  - clear Hlookup. induction calls as [|call calls IH] using rev_ind; [simpl; lia|].
    rewrite foldl_app, length_app. simpl.
    apply Forall_app in Hfresh as [Hfresh Hcall%Forall_cons_1].
    destruct Hcall as [Hcall _].
    rewrite fmap_app in Hnd. apply NoDup_app in Hnd as (Hnd & Hdisj & _).
    rewrite map_size_insert_None; [rewrite IH by done; lia|].
    rewrite (foldl_insert_last key val).
    destruct (last _) as [other|] eqn:Hlast; [|done].
    apply last_filter_Some in Hlast as [Hid%generateId_inj_aux Hin].
    exfalso. apply (Hdisj other.1); [by apply list_elem_of_fmap_2|].
    rewrite Hid. apply list_elem_of_here.
  - assert (Inj (=) (=) generateId) as Hinj
      by (intros a b; apply generateId_inj_aux).
    assert (((λ call : Z * Hooks.SetListFileData,
                (generateId call.1, Hooks.fileName call.2)) <$> calls).*1
            = generateId <$> calls.*1) as ->.
    { rewrite <- !list_fmap_compose. by apply list_fmap_ext. }
    by apply (NoDup_fmap_2 generateId).
  - apply Forall_forall. intros call Hcall. rewrite Hlookup.
    destruct (last _) as [other|] eqn:Hlast.
    + apply last_filter_Some in Hlast as [Hid%generateId_inj_aux Hin].
      by rewrite (NoDup_fmap_eq fst calls other call Hnd Hin Hcall Hid).
    + apply last_None in Hlast.
      assert (call ∈ filter (λ c, key c = generateId call.1) calls) as Hf
        by (by apply list_elem_of_filter).
      rewrite Hlast in Hf. by apply elem_of_nil in Hf.
  - intros id setList Hid. rewrite Hlookup.
    destruct (last _) as [other|] eqn:Hlast; [|done].
    apply last_filter_Some in Hlast as [Hkey Hin].
    eapply Forall_forall in Hfresh; [|exact Hin]. unfold key in Hkey. congruence.
Qed.

Lemma importSetLists_distinct_ticks_witness :
  size (setLists
          (Hooks.importSetListsMutation exampleStore
             [(500%Z, Hooks.Build_SetListFileData "old1" "B" ["s1"] "1" "1" "d" "1.0");
              (501%Z, Hooks.Build_SetListFileData "old2" "C" ["s2"] "1" "1" "d" "1.0")]).1)
  = 3.
Proof.
  destruct (importSetLists_distinct_ticks exampleStore
              [(500%Z, Hooks.Build_SetListFileData "old1" "B" ["s1"] "1" "1" "d" "1.0");
               (501%Z, Hooks.Build_SetListFileData "old2" "C" ["s2"] "1" "1" "d" "1.0")])
    as (Hsize & _).
  - apply NoDup_cons. split; [|apply NoDup_singleton].
    intros Hin%list_elem_of_singleton. discriminate Hin.
  - repeat constructor.
  - rewrite Hsize. reflexivity.
Defined.
